(** * Transaction-confirmation race coordinator

    A shallow embedding of the confirmation module of the web3.js library
    (the TypeScript text carried by [scripts/setup-test-validator.sh]):
    [raceStrategies], the two waiters built on it and the two default
    confirmer factories, together with the transaction shapes of
    [packages/transactions/src/types.ts].

    The module is asynchronous.  One invocation is modelled as a state
    machine: the synchronous prefix of [raceStrategies] (everything up to the
    [await]) builds the first state, and each later turn of the event loop
    (a racing promise settling, the caller's signal firing) is one [step]. *)

From Stdlib Require Import ZArith Lia.
From stdpp Require Import base option list strings.

(** ** Values crossing the boundary of the module *)

(** Addresses, nonces and signatures are branded strings in the source. *)
Definition Address : Type := string.
Definition Nonce : Type := string.
Definition Signature : Type := string.

(** Modelled from the spec: the [Commitment] type is imported from
    [@solana/rpc-core]; the spec describes it as the ordered enumeration
    processed < confirmed < finalized.  The module only passes it on. *)
Inductive Commitment : Type := processed | confirmed | finalized.

(** A value of TypeScript type [unknown]: [undefined], or anything else. *)
Inductive JsValue : Type :=
| undefined
| opaque (tag : string).

(** What can be thrown.  [AbortError] is the reason carried by an aborted
    [AbortSignal]; [TypeError] is what a property read on [undefined]
    raises; [Failure] stands for every other value a collaborator throws or
    rejects with. *)
Inductive JsError : Type :=
| AbortError (why : string)
| TypeError (message : string)
| Failure (message : string).

(** A synchronous computation that may throw. *)
Definition Result (A : Type) : Type := JsError + A.

(** How a promise settles. *)
Inductive Settlement (V : Type) : Type :=
| Fulfilled (v : V)
| Rejected (e : JsError).
Arguments Fulfilled {V} v.
Arguments Rejected {V} e.

(** [await p] inside an [async] function with return type [Promise<void>]
    and no [return]: a fulfilment loses its value, a rejection is rethrown. *)
Definition awaitVoid {V : Type} (s : Settlement V) : Settlement unit :=
  match s with
  | Fulfilled _ => Fulfilled tt
  | Rejected e => Rejected e
  end.

(** A [Promise<void>] placed in an array of [Promise<unknown>]. *)
Definition unknown (s : Settlement unit) : Settlement JsValue :=
  match s with
  | Fulfilled _ => Fulfilled undefined
  | Rejected e => Rejected e
  end.

(** ** Transactions ([packages/transactions/src/types.ts]) *)

Inductive TransactionVersion : Type := legacy | v0.

(** [IAccountMeta] and [IInstruction] come from [@solana/instructions]; of an
    account only [address] is read here, and the [accounts] field of an
    instruction is optional ([None] is JavaScript's [undefined]). *)
Record IAccountMeta : Type := { address : Address }.

Record IInstruction : Type := {
  programAddress : Address;
  accounts : option (list IAccountMeta);
}.

(** [BaseTransaction] with the fee payer and the signatures the config
    requires; [L] is the type of the lifetime constraint. *)
Record Transaction (L : Type) : Type := {
  instructions : list IInstruction;
  version : TransactionVersion;
  feePayer : Address;
  signatures : list (Address * string);
  lifetimeConstraint : L;
}.
Arguments instructions {L} _.
Arguments version {L} _.
Arguments feePayer {L} _.
Arguments signatures {L} _.
Arguments lifetimeConstraint {L} _.

Record NonceLifetime : Type := { nonce : Nonce }.

Record BlockhashLifetime : Type := {
  blockhash : string;
  lastValidBlockHeight : Z;
}.

(** ** Abort signals *)

(** The two signals of one invocation: the one the caller put in the config
    and [abortController.signal]. *)
Inductive SignalRef : Type := CallerSignal | InternalSignal.

#[global] Instance SignalRef_eq_dec : EqDecision SignalRef.
Proof. solve_decision. Defined.

(** The ['abort'] listeners of the caller's signal: the caller's own, and
    the closure [handleAbort] of an invocation ([owner] is the identity of
    that closure). *)
Inductive Listener : Type :=
| otherListener (id : nat)
| handleAbort (owner : nat).

#[global] Instance Listener_eq_dec : EqDecision Listener.
Proof. solve_decision. Defined.

(** An [AbortSignal]: [reason] is [Some] once it is aborted. *)
Record AbortSignal : Type := {
  reason : option string;
  listeners : list Listener;
}.

(** [signal.throwIfAborted()] *)
Definition throwIfAborted (signal : AbortSignal) : Result unit :=
  match reason signal with
  | Some why => inl (AbortError why)
  | None => inr tt
  end.

(** ** Signal factories (external collaborators) *)

(** What a factory's promise does on its own account: it may be settled
    from the start, and it may settle when the abort signal it was given
    fires.  Every other settlement comes from the outside world. *)
Record Behaviour : Type := {
  initially : option (Settlement unit);
  onAbort : option (Settlement unit);
}.

(** A factory is called with an argument record and throws or returns a
    promise. *)
Definition Factory (Args : Type) : Type := Args -> Result Behaviour.

Module SignatureArgs.
Record t : Type := {
  abortSignal : SignalRef;
  commitment : Commitment;
  signature : Signature;
}.
End SignatureArgs.

Module NonceArgs.
Record t : Type := {
  abortSignal : SignalRef;
  commitment : Commitment;
  currentNonceValue : Nonce;
  nonceAccountAddress : Address;
}.
End NonceArgs.

Module HeightArgs.
Record t : Type := {
  abortSignal : SignalRef;
  lastValidBlockHeight : Z;
}.
End HeightArgs.

(** One entry per factory invocation, with the arguments it received. *)
Inductive FactoryCall : Type :=
| calledRecentSignatureConfirmation (a : SignatureArgs.t)
| calledNonceInvalidation (a : NonceArgs.t)
| calledBlockHeightExceedence (a : HeightArgs.t).

(** The signal a factory invocation was handed. *)
Definition signalOf (c : FactoryCall) : SignalRef :=
  match c with
  | calledRecentSignatureConfirmation a => SignatureArgs.abortSignal a
  | calledNonceInvalidation a => NonceArgs.abortSignal a
  | calledBlockHeightExceedence a => HeightArgs.abortSignal a
  end.

(** A promise taking part in the race. *)
Record Racer : Type := {
  watching : SignalRef;
  state : option (Settlement JsValue);
  uponAbort : option (Settlement JsValue);
}.

Definition spawn (signal : SignalRef) (b : Behaviour) : Racer :=
  {| watching := signal;
     state := unknown <$> initially b;
     uponAbort := unknown <$> onAbort b |}.

(** ** Synchronous code that calls factories and may throw *)

Definition M (A : Type) : Type := list FactoryCall -> list FactoryCall * Result A.

Definition ret {A : Type} (a : A) : M A := fun log => (log, inr a).

Definition bind {A B : Type} (m : M A) (k : A -> M B) : M B :=
  fun log =>
    match m log with
    | (log', inl e) => (log', inl e)
    | (log', inr a) => k a log'
    end.

Definition evaluate {A : Type} (r : Result A) : M A := fun log => (log, r).

#[global] Instance M_ret : MRet M := @ret.
#[global] Instance M_bind : MBind M := fun A B k m => bind m k.

(** [factory(args)]: the invocation is recorded, then the factory throws or
    hands back its promise, bound to the signal found in [args]. *)
Definition invoke {Args : Type} (entry : Args -> FactoryCall)
    (factory : Factory Args) (args : Args) : M Racer :=
  fun log =>
    (log ++ [entry args],
     match factory args with
     | inl e => inl e
     | inr b => inr (spawn (signalOf (entry args)) b)
     end).

(** ** Configurations *)

(** [interface BaseConfig]: what [raceStrategies] needs of its generic
    [TConfig].  [withAbortSignal s config] is the object literal
    [{ ...config, abortSignal: s }]. *)
Class BaseConfig (TConfig : Type) : Type := {
  lifetime : Type;
  abortSignal : TConfig -> SignalRef;
  commitment : TConfig -> Commitment;
  getRecentSignatureConfirmationPromise : TConfig -> Factory SignatureArgs.t;
  transaction : TConfig -> Transaction lifetime;
  withAbortSignal : SignalRef -> TConfig -> TConfig;
}.

Module WaitForDurableNonceTransactionConfirmationConfig.
Record t : Type := {
  abortSignal : SignalRef;
  commitment : Commitment;
  getRecentSignatureConfirmationPromise : Factory SignatureArgs.t;
  getNonceInvalidationPromise : Factory NonceArgs.t;
  transaction : Transaction NonceLifetime;
}.
End WaitForDurableNonceTransactionConfirmationConfig.

Module WaitForRecentTransactionWithBlockhashLifetimeConfirmationConfig.
Record t : Type := {
  abortSignal : SignalRef;
  commitment : Commitment;
  getRecentSignatureConfirmationPromise : Factory SignatureArgs.t;
  getBlockHeightExceedencePromise : Factory HeightArgs.t;
  transaction : Transaction BlockhashLifetime;
}.
End WaitForRecentTransactionWithBlockhashLifetimeConfirmationConfig.

Module DurableCfg := WaitForDurableNonceTransactionConfirmationConfig.
Module RecentCfg := WaitForRecentTransactionWithBlockhashLifetimeConfirmationConfig.

#[global] Instance DurableNonce_BaseConfig : BaseConfig DurableCfg.t := {|
  lifetime := NonceLifetime;
  abortSignal := DurableCfg.abortSignal;
  commitment := DurableCfg.commitment;
  getRecentSignatureConfirmationPromise := DurableCfg.getRecentSignatureConfirmationPromise;
  transaction := DurableCfg.transaction;
  withAbortSignal := fun s config =>
    {| DurableCfg.abortSignal := s;
       DurableCfg.commitment := DurableCfg.commitment config;
       DurableCfg.getRecentSignatureConfirmationPromise :=
         DurableCfg.getRecentSignatureConfirmationPromise config;
       DurableCfg.getNonceInvalidationPromise := DurableCfg.getNonceInvalidationPromise config;
       DurableCfg.transaction := DurableCfg.transaction config |};
|}.

#[global] Instance Recent_BaseConfig : BaseConfig RecentCfg.t := {|
  lifetime := BlockhashLifetime;
  abortSignal := RecentCfg.abortSignal;
  commitment := RecentCfg.commitment;
  getRecentSignatureConfirmationPromise := RecentCfg.getRecentSignatureConfirmationPromise;
  transaction := RecentCfg.transaction;
  withAbortSignal := fun s config =>
    {| RecentCfg.abortSignal := s;
       RecentCfg.commitment := RecentCfg.commitment config;
       RecentCfg.getRecentSignatureConfirmationPromise :=
         RecentCfg.getRecentSignatureConfirmationPromise config;
       RecentCfg.getBlockHeightExceedencePromise := RecentCfg.getBlockHeightExceedencePromise config;
       RecentCfg.transaction := RecentCfg.transaction config |};
|}.

(** ** The state of one invocation of [raceStrategies] *)

Record Invocation : Type := {
  (** the signal the caller supplied in [config.abortSignal] *)
  callerAbortSignal : AbortSignal;
  (** the identity of this invocation's [handleAbort] closure *)
  self : nat;
  (** [abortController.signal.aborted]; [None] until the controller exists *)
  abortController : option bool;
  (** the promise of [getRecentSignatureConfirmationPromise], element 0 of
      the array given to [Promise.race] *)
  generic : option Racer;
  (** [specificStrategies], the elements from 1 on *)
  specific : list Racer;
  (** the factory invocations so far, oldest first *)
  calls : list FactoryCall;
  (** how many times the [finally] block has run *)
  cleanups : nat;
  (** the settlement of the promise [raceStrategies] returned *)
  result : option (Settlement JsValue);
}.

Definition setCaller (c : AbortSignal) (st : Invocation) : Invocation :=
  {| callerAbortSignal := c; self := self st; abortController := abortController st;
     generic := generic st; specific := specific st; calls := calls st;
     cleanups := cleanups st; result := result st |}.

Definition setController (b : bool) (st : Invocation) : Invocation :=
  {| callerAbortSignal := callerAbortSignal st; self := self st; abortController := Some b;
     generic := generic st; specific := specific st; calls := calls st;
     cleanups := cleanups st; result := result st |}.

Definition setRacers (g : option Racer) (sp : list Racer) (st : Invocation) : Invocation :=
  {| callerAbortSignal := callerAbortSignal st; self := self st;
     abortController := abortController st;
     generic := g; specific := sp; calls := calls st;
     cleanups := cleanups st; result := result st |}.

Definition setCalls (log : list FactoryCall) (st : Invocation) : Invocation :=
  {| callerAbortSignal := callerAbortSignal st; self := self st;
     abortController := abortController st;
     generic := generic st; specific := specific st; calls := log;
     cleanups := cleanups st; result := result st |}.

Definition setResult (s : Settlement JsValue) (st : Invocation) : Invocation :=
  {| callerAbortSignal := callerAbortSignal st; self := self st;
     abortController := abortController st;
     generic := generic st; specific := specific st; calls := calls st;
     cleanups := cleanups st; result := Some s |}.

Definition countCleanup (st : Invocation) : Invocation :=
  {| callerAbortSignal := callerAbortSignal st; self := self st;
     abortController := abortController st;
     generic := generic st; specific := specific st; calls := calls st;
     cleanups := S (cleanups st); result := result st |}.

(** ** Event targets *)

Definition owners (ls : list Listener) : list nat :=
  omap (fun l => match l with handleAbort n => Some n | otherListener _ => None end) ls.

(** Every evaluation of [function handleAbort] makes a closure distinct from
    all the listeners already registered. *)
Definition freshOwner (ls : list Listener) : nat := S (max_list (owners ls)).

(** [target.addEventListener('abort', l, { signal })]: nothing is added when
    [signal] is already aborted or [l] is already registered. *)
Definition addEventListener (l : Listener) (signalAborted : bool)
    (target : AbortSignal) : AbortSignal :=
  if signalAborted then target
  else if decide (l ∈ listeners target) then target
  else {| reason := reason target; listeners := listeners target ++ [l] |}.

Definition removeEventListener (l : Listener) (target : AbortSignal) : AbortSignal :=
  {| reason := reason target;
     listeners := filter (fun l' => l' ≠ l) (listeners target) |}.

(** A pending promise whose producer watches [signal] does what it does on
    cancellation when [signal] fires. *)
Definition notify (signal : SignalRef) (r : Racer) : Racer :=
  match state r with
  | None =>
      if decide (watching r = signal)
      then {| watching := watching r; state := uponAbort r; uponAbort := uponAbort r |}
      else r
  | Some _ => r
  end.

(** The settlement [notify] produces, if any. *)
Definition reaction (signal : SignalRef) (r : Racer) : option (Settlement JsValue) :=
  match state r with
  | None => if decide (watching r = signal) then uponAbort r else None
  | Some _ => None
  end.

(** Firing ['abort'] at [signal]: the producers are told in the order they
    subscribed, which is the order the factories were called in, the
    specific ones before the generic one.  The settlements this causes are
    returned oldest first. *)
Definition dispatch (signal : SignalRef) (st : Invocation)
    : Invocation * list (Settlement JsValue) :=
  (setRacers (notify signal <$> generic st) (notify signal <$> specific st) st,
   omap (reaction signal) (specific st ++ option_list (generic st))).

(** [abortController.abort()]: a no-op on an aborted signal; otherwise the
    signal becomes aborted, the listener registered with
    [{ signal: abortController.signal }] is removed from the caller's signal,
    and ['abort'] fires. *)
Definition abort (st : Invocation) : Invocation * list (Settlement JsValue) :=
  match abortController st with
  | Some false =>
      dispatch InternalSignal
        (setController true
           (setCaller (removeEventListener (handleAbort (self st)) (callerAbortSignal st)) st))
  | _ => (st, [])
  end.

(** Leaving the [try] block with settlement [s]: the [finally] block runs,
    then the returned promise settles with [s]. *)
Definition finally (s : Settlement JsValue) (st : Invocation) : Invocation :=
  countCleanup (fst (abort (setResult s st))).

(** [Promise.race]: the first settlement that reaches a pending race
    decides it. *)
Definition conclude (p : Invocation * list (Settlement JsValue)) : Invocation :=
  match result (fst p), snd p with
  | None, s :: _ => finally s (fst p)
  | _, _ => fst p
  end.

(** ** What the event loop delivers after the first [await] *)

Inductive Event : Type :=
| CallerAborts (why : string)                      (** the caller's signal fires *)
| Settles (i : nat) (s : Settlement JsValue).      (** element [i] of the raced array settles *)

Definition settled (s : Settlement JsValue) (r : Racer) : Racer :=
  {| watching := watching r; state := Some s; uponAbort := uponAbort r |}.

(** A promise settles once; a later settlement of the same promise, or of
    one that does not exist, changes nothing. *)
Definition settles (i : nat) (s : Settlement JsValue) (st : Invocation)
    : Invocation * list (Settlement JsValue) :=
  match i with
  | 0 =>
      match generic st with
      | Some r =>
          match state r with
          | None => (setRacers (Some (settled s r)) (specific st) st, [s])
          | Some _ => (st, [])
          end
      | None => (st, [])
      end
  | S k =>
      match specific st !! k with
      | Some r =>
          match state r with
          | None => (setRacers (generic st) (<[k := settled s r]> (specific st)) st, [s])
          | Some _ => (st, [])
          end
      | None => (st, [])
      end
  end.

(** The caller's signal fires (once): its listeners run in the order they
    were added, [handleAbort] (line 66) among them if still registered, and
    producers that watch the caller's signal itself are told.  Only this
    invocation is followed: what the other listeners of the signal do when
    they run, the [handleAbort] of another invocation included, is outside
    this state. *)
Definition callerAborts (why : string) (st : Invocation)
    : Invocation * list (Settlement JsValue) :=
  match reason (callerAbortSignal st) with
  | Some _ => (st, [])
  | None =>
      let fired :=
        setCaller {| reason := Some why; listeners := listeners (callerAbortSignal st) |} st in
      let handled :=
        if decide (handleAbort (self st) ∈ listeners (callerAbortSignal st))
        then abort fired else (fired, []) in
      let told := dispatch CallerSignal (fst handled) in
      (fst told, snd handled ++ snd told)
  end.

Definition step (e : Event) (st : Invocation) : Invocation :=
  conclude
    match e with
    | CallerAborts why => callerAborts why st
    | Settles i s => settles i s st
    end.

Definition run (es : list Event) (st : Invocation) : Invocation :=
  foldl (fun st e => step e st) st es.

(** The promise of an [async] function whose body is [await inner;] and
    whose return type is [Promise<void>]. *)
Definition awaited {V : Type} (inner : option (Settlement V)) : option (Settlement unit) :=
  awaitVoid <$> inner.

(** [transaction.instructions[0].accounts[0].address]: each property read on
    [undefined] throws a [TypeError]. *)
Definition firstAccountAddress {L : Type} (transaction : Transaction L) : Result Address :=
  match instructions transaction !! 0 with
  | None => inl (TypeError "Cannot read properties of undefined (reading 'accounts')")
  | Some instruction =>
      match accounts instruction with
      | None => inl (TypeError "Cannot read properties of undefined (reading '0')")
      | Some metas =>
          match metas !! 0 with
          | None => inl (TypeError "Cannot read properties of undefined (reading 'address')")
          | Some meta => inr (address meta)
          end
      end
  end.

(** The config a confirmer takes: the waiter's config without the factory
    fields. *)
Module ConfirmerConfig.
Record t (L : Type) : Type := {
  abortSignal : SignalRef;
  commitment : Commitment;
  transaction : Transaction L;
}.
Arguments abortSignal {L} _.
Arguments commitment {L} _.
Arguments transaction {L} _.
End ConfirmerConfig.

(** The callback [waitForDurableNonceTransactionConfirmation] passes to
    [raceStrategies] (lines 139-148).  The argument object is evaluated
    before the factory is called. *)
Module DurableNonce.
Definition getSpecificStrategiesForRace (c : DurableCfg.t) : M (list Racer) :=
  nonceAccountAddress ← evaluate (firstAccountAddress (DurableCfg.transaction c));
  p ← invoke calledNonceInvalidation (DurableCfg.getNonceInvalidationPromise c)
        {| NonceArgs.abortSignal := DurableCfg.abortSignal c;
           NonceArgs.commitment := DurableCfg.commitment c;
           NonceArgs.currentNonceValue :=
             nonce (lifetimeConstraint (DurableCfg.transaction c));
           NonceArgs.nonceAccountAddress := nonceAccountAddress |};
  mret [p].
End DurableNonce.

(** The callback [waitForRecentTransactionConfirmation] passes (lines
    157-164). *)
Module Recent.
Definition getSpecificStrategiesForRace (c : RecentCfg.t) : M (list Racer) :=
  p ← invoke calledBlockHeightExceedence (RecentCfg.getBlockHeightExceedencePromise c)
        {| HeightArgs.abortSignal := RecentCfg.abortSignal c;
           HeightArgs.lastValidBlockHeight :=
             lastValidBlockHeight (lifetimeConstraint (RecentCfg.transaction c)) |};
  mret [p].
End Recent.

Section Confirmation.

(** The imports of the module that are not part of the sources. *)
Variable getSignatureFromTransaction : forall L : Type, Transaction L -> Result Signature.

Variables Rpc RpcSubscriptions : Type.
Variable createNonceInvalidationPromiseFactory :
  Rpc -> RpcSubscriptions -> Factory NonceArgs.t.
Variable createRecentSignatureConfirmationPromiseFactory :
  Rpc -> RpcSubscriptions -> Factory SignatureArgs.t.
Variable createBlockHeightExceedencePromiseFactory :
  RpcSubscriptions -> Factory HeightArgs.t.

(** [raceStrategies] up to its [await] (lines 58-86).  [signal] is the
    object [config.abortSignal] refers to on entry. *)
Definition raceStrategies {TConfig : Type} `{BaseConfig TConfig} (config : TConfig)
    (getSpecificStrategiesForRace : TConfig -> M (list Racer))
    (signal : AbortSignal) : Invocation :=
  let called :=
    {| callerAbortSignal := signal; self := freshOwner (listeners signal);
       abortController := None; generic := None; specific := []; calls := [];
       cleanups := 0; result := None |} in
  match throwIfAborted signal with
  | inl e => setResult (Rejected e) called
  | inr _ =>
      match getSignatureFromTransaction _ (transaction config) with
      | inl e => setResult (Rejected e) called
      | inr signature =>
          let listening :=
            setController false
              (setCaller (addEventListener (handleAbort (self called)) false signal) called) in
          match getSpecificStrategiesForRace (withAbortSignal InternalSignal config) [] with
          | (log, inl e) => finally (Rejected e) (setCalls log listening)
          | (log, inr specificStrategies) =>
              let derived := setRacers None specificStrategies (setCalls log listening) in
              match
                invoke calledRecentSignatureConfirmation
                  (getRecentSignatureConfirmationPromise config)
                  {| SignatureArgs.abortSignal := InternalSignal;
                     SignatureArgs.commitment := commitment config;
                     SignatureArgs.signature := signature |} log
              with
              | (log', inl e) => finally (Rejected e) (setCalls log' derived)
              | (log', inr p) =>
                  conclude
                    (setRacers (Some p) specificStrategies (setCalls log' derived),
                     omap state (p :: specificStrategies))
              end
          end
      end
  end.

(** Lines 134-150. *)
Definition waitForDurableNonceTransactionConfirmation
    (config : WaitForDurableNonceTransactionConfirmationConfig.t)
    (signal : AbortSignal) : Invocation :=
  raceStrategies config DurableNonce.getSpecificStrategiesForRace signal.

(** Lines 152-166. *)
Definition waitForRecentTransactionConfirmation
    (config : WaitForRecentTransactionWithBlockhashLifetimeConfirmationConfig.t)
    (signal : AbortSignal) : Invocation :=
  raceStrategies config Recent.getSpecificStrategiesForRace signal.

(** The promise a waiter returns ([await raceStrategies(...)]). *)
Definition promiseOfWaiter (st : Invocation) : option (Settlement unit) := awaited (result st).

(** ** Default confirmers (lines 88-132) *)

Record DefaultDurableNonceTransactionConfirmerConfig : Type := {
  durable_rpc : Rpc;
  durable_rpcSubscriptions : RpcSubscriptions;
}.

Record DefaultRecentTransactionConfirmerConfig : Type := {
  recent_rpc : Rpc;
  recent_rpcSubscriptions : RpcSubscriptions;
}.

(** One entry per call of a [create...PromiseFactory] import. *)
Inductive Construction : Type :=
| createdNonceInvalidationPromiseFactory (rpc : Rpc) (rpcSubscriptions : RpcSubscriptions)
| createdRecentSignatureConfirmationPromiseFactory
    (rpc : Rpc) (rpcSubscriptions : RpcSubscriptions)
| createdBlockHeightExceedencePromiseFactory (rpcSubscriptions : RpcSubscriptions).

(** Code that may call the [create...PromiseFactory] imports: the
    constructions performed so far are threaded through it.  The waiters and
    [raceStrategies] contain no such call, which is why their model does not
    thread them. *)
Definition K (A : Type) : Type := list Construction -> list Construction * A.

Definition retK {A : Type} (a : A) : K A := fun built => (built, a).

Definition bindK {A B : Type} (m : K A) (k : A -> K B) : K B :=
  fun built => k (snd (m built)) (fst (m built)).

(** [create(rpc, rpcSubscriptions)] and [create(rpcSubscriptions)]: the call
    is recorded, and the import hands back the factory it built. *)
Definition construct2 {A : Type} (entry : Rpc -> RpcSubscriptions -> Construction)
    (create : Rpc -> RpcSubscriptions -> A) (rpc : Rpc)
    (rpcSubscriptions : RpcSubscriptions) : K A :=
  fun built => (built ++ [entry rpc rpcSubscriptions], create rpc rpcSubscriptions).

Definition construct1 {A : Type} (entry : RpcSubscriptions -> Construction)
    (create : RpcSubscriptions -> A) (rpcSubscriptions : RpcSubscriptions) : K A :=
  fun built => (built ++ [entry rpcSubscriptions], create rpcSubscriptions).

(** The inner [async function confirmTransaction] (lines 97-108), closed
    over the two factories: its body calls the waiter and nothing else. *)
Definition confirmTransaction
    (getNonceInvalidationPromise : Factory NonceArgs.t)
    (getRecentSignatureConfirmationPromise : Factory SignatureArgs.t)
    (config : ConfirmerConfig.t NonceLifetime) (signal : AbortSignal) : K Invocation :=
  retK
    (waitForDurableNonceTransactionConfirmation
       {| DurableCfg.abortSignal := ConfirmerConfig.abortSignal config;
          DurableCfg.commitment := ConfirmerConfig.commitment config;
          DurableCfg.transaction := ConfirmerConfig.transaction config;
          DurableCfg.getNonceInvalidationPromise := getNonceInvalidationPromise;
          DurableCfg.getRecentSignatureConfirmationPromise :=
            getRecentSignatureConfirmationPromise |}
       signal).

(** The inner [async function confirmRecentTransaction] (lines 120-131). *)
Definition confirmRecentTransaction
    (getBlockHeightExceedencePromise : Factory HeightArgs.t)
    (getRecentSignatureConfirmationPromise : Factory SignatureArgs.t)
    (config : ConfirmerConfig.t BlockhashLifetime) (signal : AbortSignal) : K Invocation :=
  retK
    (waitForRecentTransactionConfirmation
       {| RecentCfg.abortSignal := ConfirmerConfig.abortSignal config;
          RecentCfg.commitment := ConfirmerConfig.commitment config;
          RecentCfg.transaction := ConfirmerConfig.transaction config;
          RecentCfg.getBlockHeightExceedencePromise := getBlockHeightExceedencePromise;
          RecentCfg.getRecentSignatureConfirmationPromise :=
            getRecentSignatureConfirmationPromise |}
       signal).

(** The promise a confirmer returns ([await waitFor...(...)]). *)
Definition promiseOfConfirmer (st : Invocation) : option (Settlement unit) :=
  awaited (promiseOfWaiter st).

(** Lines 88-109: the two imports are called, in this order, in the body of
    the outer function; the inner function is returned closed over what they
    built. *)
Definition createDefaultDurableNonceTransactionConfirmer
    (config : DefaultDurableNonceTransactionConfirmerConfig)
    : K (ConfirmerConfig.t NonceLifetime -> AbortSignal -> K Invocation) :=
  let rpc := durable_rpc config in
  let rpcSubscriptions := durable_rpcSubscriptions config in
  bindK
    (construct2 createdNonceInvalidationPromiseFactory
       createNonceInvalidationPromiseFactory rpc rpcSubscriptions)
    (fun getNonceInvalidationPromise =>
       bindK
         (construct2 createdRecentSignatureConfirmationPromiseFactory
            createRecentSignatureConfirmationPromiseFactory rpc rpcSubscriptions)
         (fun getRecentSignatureConfirmationPromise =>
            retK
              (confirmTransaction getNonceInvalidationPromise
                 getRecentSignatureConfirmationPromise))).

(** Lines 111-132. *)
Definition createDefaultRecentTransactionConfirmer
    (config : DefaultRecentTransactionConfirmerConfig)
    : K (ConfirmerConfig.t BlockhashLifetime -> AbortSignal -> K Invocation) :=
  let rpc := recent_rpc config in
  let rpcSubscriptions := recent_rpcSubscriptions config in
  bindK
    (construct1 createdBlockHeightExceedencePromiseFactory
       createBlockHeightExceedencePromiseFactory rpcSubscriptions)
    (fun getBlockHeightExceedencePromise =>
       bindK
         (construct2 createdRecentSignatureConfirmationPromiseFactory
            createRecentSignatureConfirmationPromiseFactory rpc rpcSubscriptions)
         (fun getRecentSignatureConfirmationPromise =>
            retK
              (confirmRecentTransaction getBlockHeightExceedencePromise
                 getRecentSignatureConfirmationPromise))).

End Confirmation.

Arguments durable_rpc {Rpc RpcSubscriptions} _.
Arguments durable_rpcSubscriptions {Rpc RpcSubscriptions} _.
Arguments recent_rpc {Rpc RpcSubscriptions} _.
Arguments recent_rpcSubscriptions {Rpc RpcSubscriptions} _.
Arguments Build_DefaultDurableNonceTransactionConfirmerConfig {Rpc RpcSubscriptions} _ _.
Arguments Build_DefaultRecentTransactionConfirmerConfig {Rpc RpcSubscriptions} _ _.
Arguments createdNonceInvalidationPromiseFactory {Rpc RpcSubscriptions} _ _.
Arguments createdRecentSignatureConfirmationPromiseFactory {Rpc RpcSubscriptions} _ _.
Arguments createdBlockHeightExceedencePromiseFactory {Rpc RpcSubscriptions} _.
Arguments createDefaultDurableNonceTransactionConfirmer _ {Rpc RpcSubscriptions} _ _ _ _.
Arguments createDefaultRecentTransactionConfirmer _ {Rpc RpcSubscriptions} _ _ _ _.

(** ** The collaborators, as far as the spec describes them *)

(** Modelled from the spec: [getSignatureFromTransaction] belongs to
    [@solana/transactions] and is not part of the sources.  The spec calls
    the signature "a deterministic value derived from the transaction's
    primary signature": here the entry of the fee payer in [signatures], and
    an exception when the fee payer has not signed. *)
Definition primarySignature (L : Type) (transaction : Transaction L) : Result Signature :=
  match list_find (fun entry => String.eqb (fst entry) (feePayer transaction) = true)
          (signatures transaction) with
  | Some (_, (_, signature)) => inr signature
  | None => inl (Failure "Could not determine this transaction's signature")
  end.

(** Modelled from the spec: the signature-confirmation factory
    ([transaction-confirmation-strategy-recent-signature], not part of the
    sources) "resolves once the signature reaches the commitment level,
    rejects on cancellation or timeout".  The promise is pending when it is
    returned and rejects with an abort error when its signal fires; the
    fulfilment is an event of the network. *)
Definition specRecentSignatureConfirmationPromise : Factory SignatureArgs.t :=
  fun _ =>
    inr {| initially := None;
           onAbort := Some (Rejected (AbortError "This operation was aborted")) |}.

(** Modelled from the spec: the nonce-invalidation factory
    ([transaction-confirmation-strategy-nonce], not part of the sources)
    produces "a promise that settles when ... [the] durable nonce value
    diverges from an expected value", and on cancellation "aborts its
    internal work".  The promise is pending when it is returned. *)
Definition specNonceInvalidationPromise : Factory NonceArgs.t :=
  fun _ => inr {| initially := None; onAbort := None |}.

(** Modelled from the spec: what the promise of the nonce-invalidation
    factory does when its subscription reports the value [observed] of the
    nonce account: nothing while it equals [currentNonceValue], and the
    "rejected-invalidated" outcome (sections 3, 6 and 7) once it differs. *)
Definition nonceObserved (args : NonceArgs.t) (observed : Nonce)
    : option (Settlement JsValue) :=
  if String.eqb observed (NonceArgs.currentNonceValue args) then None
  else Some (Rejected (Failure "The nonce is no longer valid")).

(** Modelled from the spec: the block-height factory
    ([transaction-confirmation-strategy-blockheight], not part of the
    sources): pending when returned, "aborts its internal work" on
    cancellation. *)
Definition specBlockHeightExceedencePromise : Factory HeightArgs.t :=
  fun _ => inr {| initially := None; onAbort := None |}.

(** The event, if any, that an observation of the nonce account causes for
    element 1 of the raced array (the nonce-invalidation promise). *)
Definition nonceAccountChanged (args : NonceArgs.t) (observed : Nonce) : list Event :=
  match nonceObserved args observed with
  | Some s => [Settles 1 s]
  | None => []
  end.

(** ** Sample data *)

Definition advanceNonce : IInstruction :=
  {| programAddress := "11111111111111111111111111111111";
     accounts := Some [ {| address := "NonceAcct" |}; {| address := "Authority" |} ] |}.

Definition durableTransaction : Transaction NonceLifetime :=
  {| instructions := [advanceNonce];
     version := v0;
     feePayer := "Payer";
     signatures := [("Payer", "Sig1")];
     lifetimeConstraint := {| nonce := "N1" |} |}.

Definition emptyDurableTransaction : Transaction NonceLifetime :=
  {| instructions := [];
     version := legacy;
     feePayer := "Payer";
     signatures := [("Payer", "Sig1")];
     lifetimeConstraint := {| nonce := "N1" |} |}.

Definition recentTransaction : Transaction BlockhashLifetime :=
  {| instructions := [];
     version := v0;
     feePayer := "Payer";
     signatures := [("Payer", "Sig2")];
     lifetimeConstraint := {| blockhash := "Hash"; lastValidBlockHeight := 100 |} |}.

Definition freshSignal : AbortSignal :=
  {| reason := None; listeners := [otherListener 7] |}.

Definition abortedSignal : AbortSignal :=
  {| reason := Some "user cancelled"; listeners := [otherListener 7] |}.

Definition durableConfig (transaction : Transaction NonceLifetime) : DurableCfg.t :=
  {| DurableCfg.abortSignal := CallerSignal;
     DurableCfg.commitment := confirmed;
     DurableCfg.getRecentSignatureConfirmationPromise := specRecentSignatureConfirmationPromise;
     DurableCfg.getNonceInvalidationPromise := specNonceInvalidationPromise;
     DurableCfg.transaction := transaction |}.

Definition recentConfig : RecentCfg.t :=
  {| RecentCfg.abortSignal := CallerSignal;
     RecentCfg.commitment := finalized;
     RecentCfg.getRecentSignatureConfirmationPromise := specRecentSignatureConfirmationPromise;
     RecentCfg.getBlockHeightExceedencePromise := specBlockHeightExceedencePromise;
     RecentCfg.transaction := recentTransaction |}.

(** What no turn of the event loop changes of a raced promise: the signal
    it watches and what it does on cancellation. *)
Definition wiring (r : Racer) : SignalRef * option (Settlement JsValue) :=
  (watching r, uponAbort r).

(** Scenario C of the spec: a durable-nonce transaction built against the
    nonce ["N1"], awaited on a signal that has not fired; [scenarioC_args]
    is what the nonce-invalidation factory was called with. *)
Definition scenarioC : Invocation :=
  waitForDurableNonceTransactionConfirmation primarySignature
    (durableConfig durableTransaction) freshSignal.

Definition scenarioC_args : NonceArgs.t :=
  {| NonceArgs.abortSignal := InternalSignal;
     NonceArgs.commitment := confirmed;
     NonceArgs.currentNonceValue := "N1";
     NonceArgs.nonceAccountAddress := "NonceAcct" |}.

(** A durable-nonce transaction without instructions, awaited on a signal
    that is already aborted. *)
Definition refusedMalformedCall : Invocation :=
  waitForDurableNonceTransactionConfirmation primarySignature
    (durableConfig emptyDurableTransaction) abortedSignal.

(** ** Invariant of an invocation *)

(** The raced promises, in array order. *)
Definition racers (st : Invocation) : list Racer := option_list (generic st) ++ specific st.

Definition pending (r : Racer) : Prop := state r = None.

(** A producer watching the internal signal has been told of its abort:
    if its promise is still pending, it is because the producer does not
    settle on cancellation. *)
Definition told (r : Racer) : Prop :=
  watching r = InternalSignal -> state r = None -> uponAbort r = None.

(** The states an invocation can be in, [ls] being the listeners of the
    caller's signal at the time of the call: returned before the controller
    existed; racing, with the internal signal not yet or already fired; and
    returned through the [finally] block.  A racing invocation has all its
    promises pending once the settlements of the current turn have been
    handed to the race ([quiet]), and its internal signal can only have
    fired because the caller's did. *)
Definition Shape (quiet : Prop) (ls : list Listener) (st : Invocation) : Prop :=
  (handleAbort (self st) ∉ ls) ∧
  (abortController st = Some true -> Forall told (racers st)) ∧
  (forall g, generic st = Some g -> watching g = InternalSignal) ∧
  (abortController st = Some true -> result st = None ->
   is_Some (reason (callerAbortSignal st))) ∧
  match abortController st, result st with
  | None, Some _ =>
      cleanups st = 0 ∧ calls st = [] ∧ racers st = [] ∧
      listeners (callerAbortSignal st) = ls
  | Some false, None =>
      cleanups st = 0 ∧ is_Some (generic st) ∧ (quiet -> Forall pending (racers st)) ∧
      listeners (callerAbortSignal st) = ls ++ [handleAbort (self st)]
  | Some true, None =>
      cleanups st = 0 ∧ is_Some (generic st) ∧ (quiet -> Forall pending (racers st)) ∧
      listeners (callerAbortSignal st) = ls
  | Some true, Some _ =>
      cleanups st = 1 ∧ listeners (callerAbortSignal st) = ls
  | _, _ => False
  end.

Definition Inv (ls : list Listener) (st : Invocation) : Prop := Shape True ls st.

(** ** Further sample data *)

(** A transaction its fee payer has not signed. *)
Definition unsignedTransaction : Transaction BlockhashLifetime :=
  {| instructions := [];
     version := v0;
     feePayer := "Payer";
     signatures := [("Other", "Sig3")];
     lifetimeConstraint := {| blockhash := "Hash"; lastValidBlockHeight := 100 |} |}.

(** Factories that throw when called, that hand back a promise which
    ignores cancellation, and that hand back a promise already settled. *)
Definition throwingFactory {Args : Type} (message : string) : Factory Args :=
  fun _ => inl (Failure message).

Definition quietFactory {Args : Type} : Factory Args :=
  fun _ => inr {| initially := None; onAbort := None |}.

Definition settledFactory {Args : Type} (s : Settlement unit) : Factory Args :=
  fun _ => inr {| initially := Some s; onAbort := None |}.

Definition recentConfigWith (getRecentSignatureConfirmationPromise : Factory SignatureArgs.t)
    (getBlockHeightExceedencePromise : Factory HeightArgs.t)
    (transaction : Transaction BlockhashLifetime) : RecentCfg.t :=
  {| RecentCfg.abortSignal := CallerSignal;
     RecentCfg.commitment := finalized;
     RecentCfg.getRecentSignatureConfirmationPromise := getRecentSignatureConfirmationPromise;
     RecentCfg.getBlockHeightExceedencePromise := getBlockHeightExceedencePromise;
     RecentCfg.transaction := transaction |}.

(** An invocation that returned without racing anything: no event finds a
    promise to settle or a producer to tell. *)
Definition raceless (st : Invocation) : Prop :=
  is_Some (result st) ∧ generic st = None ∧ specific st = [].

(** ** The settlements a caller's abort provokes *)

(** The producers behind the raced promises, in the order they subscribed to
    the signal they were handed: the order the factories were called in
    (line 71, then line 76). *)
Definition subscribers (st : Invocation) : list Racer :=
  specific st ++ option_list (generic st).

(** What the raced promises do of their own accord when the caller's signal
    fires while [handleAbort] is registered: the settlements of the
    producers that watch the internal signal, which [handleAbort] aborts,
    then those of the producers that watch the caller's signal itself. *)
Definition cancellations (st : Invocation) : list (Settlement JsValue) :=
  omap (reaction InternalSignal) (subscribers st)
  ++ omap (reaction CallerSignal) (subscribers st).

(** A factory whose promise settles with [s] when it is cancelled. *)
Definition cancellingFactory {Args : Type} (s : Settlement unit) : Factory Args :=
  fun _ => inr {| initially := None; onAbort := Some s |}.

(** A wait whose signature-confirmation promise rejects on cancellation,
    as the spec has it, and whose block-height promise resolves on
    cancellation. *)
Definition hastyCall : Invocation :=
  waitForRecentTransactionConfirmation primarySignature
    (recentConfigWith specRecentSignatureConfirmationPromise
       (cancellingFactory (Fulfilled tt)) recentTransaction)
    freshSignal.

(** Durable-nonce transactions whose first instruction has no [accounts]
    field, and an empty one. *)
Definition accountlessDurableTransaction : Transaction NonceLifetime :=
  {| instructions :=
       [ {| programAddress := "11111111111111111111111111111111"; accounts := None |} ];
     version := v0;
     feePayer := "Payer";
     signatures := [("Payer", "Sig1")];
     lifetimeConstraint := {| nonce := "N1" |} |}.

Definition noAccountDurableTransaction : Transaction NonceLifetime :=
  {| instructions :=
       [ {| programAddress := "11111111111111111111111111111111"; accounts := Some [] |};
         advanceNonce ];
     version := v0;
     feePayer := "Payer";
     signatures := [("Payer", "Sig1")];
     lifetimeConstraint := {| nonce := "N1" |} |}.

(** * Properties *)

Section Properties.

Variable getSignatureFromTransaction : forall L : Type, Transaction L -> Result Signature.

Variables Rpc RpcSubscriptions : Type.
Variable createNonceInvalidationPromiseFactory :
  Rpc -> RpcSubscriptions -> Factory NonceArgs.t.
Variable createRecentSignatureConfirmationPromiseFactory :
  Rpc -> RpcSubscriptions -> Factory SignatureArgs.t.
Variable createBlockHeightExceedencePromiseFactory :
  RpcSubscriptions -> Factory HeightArgs.t.

Local Abbreviation raceStrategies := (raceStrategies getSignatureFromTransaction).
Local Abbreviation waitForDurableNonceTransactionConfirmation :=
  (waitForDurableNonceTransactionConfirmation getSignatureFromTransaction).
Local Abbreviation waitForRecentTransactionConfirmation :=
  (waitForRecentTransactionConfirmation getSignatureFromTransaction).
Local Abbreviation createDefaultDurableNonceTransactionConfirmer :=
  (createDefaultDurableNonceTransactionConfirmer getSignatureFromTransaction
     createNonceInvalidationPromiseFactory createRecentSignatureConfirmationPromiseFactory).
Local Abbreviation createDefaultRecentTransactionConfirmer :=
  (createDefaultRecentTransactionConfirmer getSignatureFromTransaction
     createRecentSignatureConfirmationPromiseFactory createBlockHeightExceedencePromiseFactory).

(** *** Event targets *)

Lemma freshOwner_fresh (ls : list Listener) : handleAbort (freshOwner ls) ∉ ls.
Proof.
  intros Hin.
  assert (Hle : freshOwner ls <= max_list (owners ls)).
  { apply max_list_elem_of_le. unfold owners. apply list_elem_of_omap.
    exists (handleAbort (freshOwner ls)). split; [exact Hin | reflexivity]. }
  unfold freshOwner in Hle. lia.
Qed.

Lemma filter_detach (l : Listener) (ls : list Listener) :
  l ∉ ls -> filter (fun l' => l' ≠ l) (ls ++ [l]) = ls.
Proof.
  intros Hnot. rewrite filter_app. simpl.
  rewrite filter_cons_False by (intros H; apply H; reflexivity).
  rewrite filter_nil, app_nil_r.
  induction ls as [|x xs IH]; [reflexivity|].
  rewrite filter_cons_True.
  - f_equal. apply IH. intros H. apply Hnot. right. exact H.
  - intros ->. apply Hnot. left.
Qed.

(** *** Racers *)

Lemma notify_told_internal (r : Racer) : told (notify InternalSignal r).
Proof.
  unfold told, notify. destruct r as [w [s|] u]; simpl.
  - intros _ H. discriminate H.
  - destruct (decide (w = InternalSignal)); simpl; [intros _ H; exact H | intros H; contradiction].
Qed.

Lemma notify_told (signal : SignalRef) (r : Racer) : told r -> told (notify signal r).
Proof.
  unfold told, notify. destruct r as [w [s|] u]; simpl; [auto|].
  destruct (decide (w = signal)); simpl; auto.
Qed.

Lemma settled_told (s : Settlement JsValue) (r : Racer) : told (settled s r).
Proof. unfold told, settled. simpl. intros _ H. discriminate H. Qed.

Lemma notify_quiet (signal : SignalRef) (r : Racer) :
  pending r -> reaction signal r = None -> pending (notify signal r).
Proof.
  unfold pending, reaction, notify. intros Hp. rewrite Hp.
  destruct (decide (watching r = signal)); simpl; auto.
Qed.

Lemma notify_watching (signal : SignalRef) (r : Racer) :
  watching (notify signal r) = watching r.
Proof. unfold notify. destruct (state r); [reflexivity|]. destruct (decide _); reflexivity. Qed.

Lemma notify_uponAbort (signal : SignalRef) (r : Racer) :
  uponAbort (notify signal r) = uponAbort r.
Proof. unfold notify. destruct (state r); [reflexivity|]. destruct (decide _); reflexivity. Qed.

Lemma omap_reaction_nil (signal : SignalRef) (rs : list Racer) :
  omap (reaction signal) rs = [] -> Forall (fun r => reaction signal r = None) rs.
Proof.
  induction rs as [|r rs IH]; simpl; [constructor|].
  destruct (reaction signal r) eqn:E; [discriminate|]. intros H. constructor; auto.
Qed.

Lemma notify_all_quiet (signal : SignalRef) (rs : list Racer) :
  Forall pending rs -> omap (reaction signal) rs = [] -> Forall pending (notify signal <$> rs).
Proof.
  intros Hp Hq. apply omap_reaction_nil in Hq.
  induction Hp as [|r rs Hr Hrs IH]; simpl; [constructor|].
  inversion Hq; subst. constructor; [apply notify_quiet; assumption | apply IH; assumption].
Qed.

Lemma notify_all_told_internal (rs : list Racer) : Forall told (notify InternalSignal <$> rs).
Proof. induction rs; simpl; constructor; [apply notify_told_internal | assumption]. Qed.

Lemma notify_all_told (signal : SignalRef) (rs : list Racer) :
  Forall told rs -> Forall told (notify signal <$> rs).
Proof. induction 1; simpl; constructor; [apply notify_told; assumption | assumption]. Qed.

(** *** The primitives of the machine *)

Lemma dispatch_fst (signal : SignalRef) (st : Invocation) :
  fst (dispatch signal st)
  = setRacers (notify signal <$> generic st) (notify signal <$> specific st) st.
Proof. reflexivity. Qed.

Lemma racers_setRacers (g : option Racer) (sp : list Racer) (st : Invocation) :
  racers (setRacers g sp st) = option_list g ++ sp.
Proof. reflexivity. Qed.

Lemma racers_notify (signal : SignalRef) (st : Invocation) :
  racers (fst (dispatch signal st)) = notify signal <$> racers st.
Proof.
  unfold racers. simpl. rewrite fmap_app. f_equal. destruct (generic st); reflexivity.
Qed.

Lemma generic_watching_notify (signal : SignalRef) (g0 : option Racer) :
  (forall g, g0 = Some g -> watching g = InternalSignal) ->
  forall g, notify signal <$> g0 = Some g -> watching g = InternalSignal.
Proof.
  intros H g. destruct g0 as [r|]; simpl; [|discriminate].
  intros [= <-]. rewrite notify_watching. apply H. reflexivity.
Qed.

Lemma finally_result (s : Settlement JsValue) (st : Invocation) :
  result (finally s st) = Some s.
Proof.
  unfold finally, abort. simpl. destruct (abortController st) as [[|]|]; reflexivity.
Qed.

Lemma finally_Inv (ls : list Listener) (s : Settlement JsValue) (st : Invocation) :
  handleAbort (self st) ∉ ls ->
  (forall g, generic st = Some g -> watching g = InternalSignal) ->
  cleanups st = 0 ->
  (abortController st = Some false
     ∧ listeners (callerAbortSignal st) = ls ++ [handleAbort (self st)])
  ∨ (abortController st = Some true
       ∧ listeners (callerAbortSignal st) = ls ∧ Forall told (racers st)) ->
  Inv ls (finally s st).
Proof.
  intros Hfresh Hwatch Hclean [[Hctl Hls] | (Hctl & Hls & Htold)];
    unfold finally, abort; simpl; rewrite Hctl.
  - unfold Inv, Shape. simpl. split; [exact Hfresh|]. split; [|split; [|split]].
    + intros _. change (Forall told (racers (fst (dispatch InternalSignal st)))).
      rewrite racers_notify. apply notify_all_told_internal.
    + apply generic_watching_notify. exact Hwatch.
    + intros _ H. discriminate H.
    + rewrite Hclean, Hls. split; [reflexivity|]. apply filter_detach. exact Hfresh.
  - unfold Inv, Shape. simpl. rewrite Hctl, Hclean.
    split; [exact Hfresh|]. split; [auto|]. split; [exact Hwatch|].
    split; [intros _ H; discriminate H | auto].
Qed.

Lemma conclude_Inv (ls : list Listener) (st : Invocation) (news : list (Settlement JsValue)) :
  Shape (news = []) ls st -> Inv ls (conclude (st, news)).
Proof.
  intros (Hfresh & Htold & Hwatch & Hwhy & Hshape). unfold conclude. simpl.
  destruct (result st) as [s0|] eqn:Hres.
  - unfold Inv, Shape. rewrite Hres. split; [exact Hfresh|]. split; [exact Htold|].
    split; [exact Hwatch|]. split; [exact Hwhy|].
    destruct (abortController st) as [[|]|]; tauto.
  - destruct news as [|s news].
    + unfold Inv, Shape. rewrite Hres. split; [exact Hfresh|]. split; [exact Htold|].
      split; [exact Hwatch|]. split; [exact Hwhy|].
      destruct (abortController st) as [[|]|]; tauto.
    + destruct (abortController st) as [[|]|] eqn:Hctl; [| |contradiction].
      * apply finally_Inv; tauto.
      * apply finally_Inv; tauto.
Qed.

Lemma dispatch_quiet (signal : SignalRef) (st : Invocation) :
  snd (dispatch signal st) = [] -> omap (reaction signal) (racers st) = [].
Proof.
  unfold dispatch, racers. simpl. rewrite !omap_app.
  intros H. apply app_eq_nil in H as [H1 H2]. rewrite H1, H2. reflexivity.
Qed.

Lemma dispatch_pending (signal : SignalRef) (st : Invocation) :
  Forall pending (racers st) -> snd (dispatch signal st) = [] ->
  Forall pending (racers (fst (dispatch signal st))).
Proof.
  intros Hp Hq. rewrite racers_notify. apply notify_all_quiet; [exact Hp|].
  apply dispatch_quiet. exact Hq.
Qed.

Lemma dispatch_Shape (Q : Prop) (ls : list Listener) (signal : SignalRef) (st : Invocation) :
  Shape Q ls st ->
  Shape (Q ∧ snd (dispatch signal st) = []) ls (fst (dispatch signal st)).
Proof.
  intros (Hfresh & Htold & Hwatch & Hwhy & Hshape). unfold Shape.
  rewrite racers_notify. simpl. split; [exact Hfresh|]. split; [|split; [|split]].
  - intros H. apply notify_all_told. auto.
  - apply generic_watching_notify. exact Hwatch.
  - exact Hwhy.
  - assert (Hgen : is_Some (generic st) -> is_Some (notify signal <$> generic st)).
    { intros [g ->]. eexists. reflexivity. }
    assert (Hpend : (Q -> Forall pending (racers st)) ->
                    Q ∧ snd (dispatch signal st) = [] ->
                    Forall pending (notify signal <$> racers st)).
    { intros H [HQ Hq]. rewrite <- racers_notify. apply dispatch_pending; auto. }
    assert (Hnil : racers st = [] -> notify signal <$> racers st = []).
    { intros ->. reflexivity. }
    destruct (abortController st) as [[|]|], (result st); intuition.
Qed.

Lemma Shape_weaken (Q Q' : Prop) (ls : list Listener) (st : Invocation) :
  (Q' -> Q) -> Shape Q ls st -> Shape Q' ls st.
Proof.
  intros HQ (Hfresh & Htold & Hwatch & Hwhy & Hshape). unfold Shape.
  split; [exact Hfresh|]. split; [exact Htold|]. split; [exact Hwatch|].
  split; [exact Hwhy|].
  destruct (abortController st) as [[|]|], (result st); intuition.
Qed.

Lemma settled_in_race (ls : list Listener) (st : Invocation) :
  Inv ls st -> racers st ≠ [] -> is_Some (abortController st).
Proof.
  intros (_ & _ & _ & _ & Hshape) Hne.
  destruct (abortController st) as [b|]; [eexists; reflexivity|].
  destruct (result st); [|contradiction]. destruct Hshape as (_ & _ & Hnil & _). contradiction.
Qed.

Lemma settles_Shape (ls : list Listener) (i : nat) (s : Settlement JsValue) (st : Invocation) :
  Inv ls st -> Shape (snd (settles i s st) = []) ls (fst (settles i s st)).
Proof.
  intros HInv.
  assert (Hsame : Shape (@nil (Settlement JsValue) = []) ls st).
  { eapply Shape_weaken; [|exact HInv]. auto. }
  unfold settles. destruct i as [|k].
  - destruct (generic st) as [r|] eqn:Hg; [|exact Hsame].
    destruct (state r) eqn:Hr; [exact Hsame|]. simpl.
    assert (Hctl : is_Some (abortController st)).
    { apply (settled_in_race ls); [exact HInv|]. unfold racers. rewrite Hg. discriminate. }
    destruct HInv as (Hfresh & Htold & Hwatch & Hwhy & Hshape). unfold Shape. simpl.
    split; [exact Hfresh|]. split; [|split; [|split]].
    + intros H. specialize (Htold H). unfold racers in *. rewrite Hg in Htold. simpl in *.
      inversion Htold; subst. constructor; [apply settled_told | assumption].
    + intros g [= <-]. simpl. apply Hwatch. exact Hg.
    + exact Hwhy.
    + destruct Hctl as [b Hctl]. rewrite Hctl in *. rewrite Hg in Hshape.
      destruct b, (result st); try tauto; intuition (try discriminate; eauto).
  - destruct (specific st !! k) as [r|] eqn:Hk; [|exact Hsame].
    destruct (state r) eqn:Hr; [exact Hsame|]. simpl.
    assert (Hctl : is_Some (abortController st)).
    { apply (settled_in_race ls); [exact HInv|]. unfold racers.
      intros H. apply app_eq_nil in H as [_ H]. rewrite H in Hk. discriminate. }
    destruct HInv as (Hfresh & Htold & Hwatch & Hwhy & Hshape). unfold Shape. simpl.
    split; [exact Hfresh|]. split; [|split; [|split]].
    + intros H. specialize (Htold H). unfold racers in *. simpl.
      apply Forall_app in Htold as [H1 H2]. apply Forall_app. split; [exact H1|].
      apply Forall_insert; [exact H2 | apply settled_told].
    + exact Hwatch.
    + exact Hwhy.
    + destruct Hctl as [b Hctl]. rewrite Hctl in *.
      destruct b, (result st); try tauto; intuition (try discriminate; eauto).
Qed.

Lemma abort_Shape (ls : list Listener) (st : Invocation) :
  Inv ls st -> abortController st = Some false ->
  is_Some (reason (callerAbortSignal st)) ->
  Shape (snd (abort st) = []) ls (fst (abort st)).
Proof.
  intros (Hfresh & _ & Hwatch & _ & Hshape) Hctl Hwhy. unfold abort. rewrite Hctl in *.
  destruct (result st) eqn:Hres; [contradiction|].
  destruct Hshape as (Hclean & Hgen & Hpend & Hls).
  set (st1 := setController true _).
  unfold Shape. rewrite racers_notify. simpl. rewrite Hres.
  split; [exact Hfresh|]. split; [|split; [|split]].
  - intros _. apply notify_all_told_internal.
  - apply generic_watching_notify. exact Hwatch.
  - intros _ _. exact Hwhy.
  - split; [exact Hclean|]. split; [|split].
    + destruct Hgen as [g ->]. eexists. reflexivity.
    + intros Hq. apply notify_all_quiet; [auto|].
      apply (dispatch_quiet InternalSignal st1). exact Hq.
    + rewrite Hls. apply filter_detach. exact Hfresh.
Qed.

Lemma listening_iff (ls : list Listener) (st : Invocation) :
  Inv ls st ->
  handleAbort (self st) ∈ listeners (callerAbortSignal st) <-> abortController st = Some false.
Proof.
  intros (Hfresh & _ & _ & _ & Hshape).
  destruct (abortController st) as [[|]|], (result st); try contradiction.
  - destruct Hshape as [_ ->]. split; [contradiction | discriminate].
  - destruct Hshape as (_ & _ & _ & ->). split; [contradiction | discriminate].
  - destruct Hshape as (_ & _ & _ & ->). split; [reflexivity|].
    intros _. apply elem_of_app. right. apply list_elem_of_singleton. reflexivity.
  - destruct Hshape as (_ & _ & _ & ->). split; [contradiction | discriminate].
Qed.

Lemma callerAborts_Shape (ls : list Listener) (why : string) (st : Invocation) :
  Inv ls st -> Shape (snd (callerAborts why st) = []) ls (fst (callerAborts why st)).
Proof.
  intros HInv. unfold callerAborts.
  destruct (reason (callerAbortSignal st)).
  { eapply Shape_weaken; [|exact HInv]. auto. }
  set (fired := setCaller _ st).
  assert (Hwhy : is_Some (reason (callerAbortSignal fired))) by (eexists; reflexivity).
  assert (Hfired : Inv ls fired).
  { destruct HInv as (H1 & H2 & H3 & _ & H5). split; [exact H1|]. split; [exact H2|].
    split; [exact H3|]. split; [intros _ _; exact Hwhy | exact H5]. }
  destruct (decide (handleAbort (self st) ∈ listeners (callerAbortSignal st))) as [Hin|Hout].
  - apply (listening_iff ls st HInv) in Hin.
    refine (Shape_weaken _ _ ls _ _
              (dispatch_Shape _ ls CallerSignal _ (abort_Shape ls fired Hfired Hin Hwhy))).
    intros H. apply app_eq_nil in H. exact H.
  - refine (Shape_weaken _ _ ls _ _ (dispatch_Shape True ls CallerSignal fired Hfired)).
    simpl. auto.
Qed.

Lemma step_Inv (ls : list Listener) (e : Event) (st : Invocation) :
  Inv ls st -> Inv ls (step e st).
Proof.
  intros HInv. unfold step. destruct e as [why | i s].
  - rewrite (surjective_pairing (callerAborts why st)).
    apply conclude_Inv, callerAborts_Shape, HInv.
  - rewrite (surjective_pairing (settles i s st)).
    apply conclude_Inv, settles_Shape, HInv.
Qed.

Lemma run_Inv (ls : list Listener) (es : list Event) (st : Invocation) :
  Inv ls st -> Inv ls (run es st).
Proof.
  revert st. induction es as [|e es IH]; intros st HInv; [exact HInv|].
  apply IH, step_Inv, HInv.
Qed.

Lemma omap_state_nil (rs : list Racer) : omap state rs = [] -> Forall pending rs.
Proof.
  induction rs as [|r rs IH]; simpl; [constructor|].
  destruct (state r) eqn:E; [discriminate|]. intros H. constructor; auto.
Qed.

Lemma addEventListener_fresh (l : Listener) (target : AbortSignal) :
  l ∉ listeners target ->
  addEventListener l false target
  = {| reason := reason target; listeners := listeners target ++ [l] |}.
Proof.
  intros Hnot. unfold addEventListener.
  destruct (decide (l ∈ listeners target)); [contradiction | reflexivity].
Qed.

Lemma raceStrategies_Inv {TConfig : Type} `{BaseConfig TConfig} (config : TConfig)
    (getSpecificStrategiesForRace : TConfig -> M (list Racer)) (signal : AbortSignal) :
  Inv (listeners signal) (raceStrategies config getSpecificStrategiesForRace signal).
Proof.
  pose proof (freshOwner_fresh (listeners signal)) as Hfresh.
  unfold raceStrategies, throwIfAborted. cbv zeta. simpl self.
  destruct (reason signal) as [why|].
  { unfold Inv, Shape. simpl. repeat split; auto; intros; discriminate. }
  destruct (getSignatureFromTransaction _ (transaction config)) as [e|signature].
  { unfold Inv, Shape. simpl. repeat split; auto; intros; discriminate. }
  rewrite (addEventListener_fresh _ _ Hfresh).
  destruct (getSpecificStrategiesForRace _ []) as [log [e|specificStrategies]].
  { apply finally_Inv; simpl; auto. intros; discriminate. }
  unfold invoke.
  destruct (getRecentSignatureConfirmationPromise config _) as [e|b].
  { apply finally_Inv; simpl; auto. intros; discriminate. }
  apply conclude_Inv. unfold Shape. simpl.
  split; [exact Hfresh|]. split; [intros; discriminate|]. split; [|split].
  - intros g [= <-]. reflexivity.
  - intros; discriminate.
  - split; [reflexivity|]. split; [eexists; reflexivity|]. split; [|reflexivity].
    intros Hq. apply (omap_state_nil (spawn InternalSignal b :: specificStrategies)).
    exact Hq.
Qed.

(** *** What a turn of the event loop leaves alone *)

Lemma abort_frame (st : Invocation) :
  result (fst (abort st)) = result st ∧ calls (fst (abort st)) = calls st
  ∧ cleanups (fst (abort st)) = cleanups st ∧ self (fst (abort st)) = self st.
Proof. unfold abort. destruct (abortController st) as [[|]|]; simpl; auto. Qed.

Lemma settles_frame (i : nat) (s : Settlement JsValue) (st : Invocation) :
  result (fst (settles i s st)) = result st ∧ calls (fst (settles i s st)) = calls st.
Proof.
  unfold settles. destruct i as [|k].
  - destruct (generic st) as [r|]; [destruct (state r)|]; simpl; auto.
  - destruct (specific st !! k) as [r|]; [destruct (state r)|]; simpl; auto.
Qed.

Lemma callerAborts_frame (why : string) (st : Invocation) :
  result (fst (callerAborts why st)) = result st
  ∧ calls (fst (callerAborts why st)) = calls st.
Proof.
  unfold callerAborts. destruct (reason (callerAbortSignal st)); [auto|].
  destruct (decide _); simpl; [|auto].
  match goal with |- context [abort ?x] => destruct (abort_frame x) as (-> & -> & _) end.
  auto.
Qed.

Lemma finally_calls (s : Settlement JsValue) (st : Invocation) :
  calls (finally s st) = calls st.
Proof.
  unfold finally. simpl. destruct (abort_frame (setResult s st)) as (_ & -> & _). reflexivity.
Qed.

Lemma conclude_calls (p : Invocation * list (Settlement JsValue)) :
  calls (conclude p) = calls (fst p).
Proof.
  unfold conclude. destruct (result (fst p)), (snd p); try reflexivity. apply finally_calls.
Qed.

Lemma step_calls (e : Event) (st : Invocation) : calls (step e st) = calls st.
Proof.
  unfold step. rewrite conclude_calls. destruct e.
  - apply callerAborts_frame.
  - apply settles_frame.
Qed.

Lemma run_calls (es : list Event) (st : Invocation) : calls (run es st) = calls st.
Proof.
  revert st. induction es as [|e es IH]; intros st; [reflexivity|].
  change (calls (run es (step e st)) = calls st). rewrite IH. apply step_calls.
Qed.

Lemma step_result_stable (e : Event) (s : Settlement JsValue) (st : Invocation) :
  result st = Some s -> result (step e st) = Some s.
Proof.
  intros Hres. unfold step, conclude.
  assert (Hkeep : result (fst match e with
                               | CallerAborts why => callerAborts why st
                               | Settles i s0 => settles i s0 st
                               end) = Some s).
  { destruct e; [rewrite (proj1 (callerAborts_frame _ _)) | rewrite (proj1 (settles_frame _ _ _))];
      exact Hres. }
  rewrite Hkeep. exact Hkeep.
Qed.

Lemma run_result_stable (es : list Event) (s : Settlement JsValue) (st : Invocation) :
  result st = Some s -> result (run es st) = Some s.
Proof.
  revert st. induction es as [|e es IH]; intros st Hres; [exact Hres|].
  apply IH, step_result_stable, Hres.
Qed.

Lemma run_app (es1 es2 : list Event) (st : Invocation) :
  run (es1 ++ es2) st = run es2 (run es1 st).
Proof. unfold run. apply foldl_app. Qed.

(** A settlement delivered to a pending race decides it. *)
Lemma settles_decides (ls : list Listener) (i : nat) (s : Settlement JsValue)
    (st : Invocation) :
  Inv ls st -> result st = None -> i <= length (specific st) ->
  result (step (Settles i s) st) = Some s.
Proof.
  intros (_ & _ & _ & _ & Hshape) Hres Hi. rewrite Hres in Hshape.
  assert (Hpend : is_Some (generic st) ∧ Forall pending (racers st)).
  { destruct (abortController st) as [[|]|]; tauto. }
  destruct Hpend as [[g Hg] Hpend]. unfold racers in Hpend. rewrite Hg in Hpend.
  simpl in Hpend. inversion Hpend as [|? ? Hgp Hsp]; subst.
  unfold step, settles. destruct i as [|k].
  - rewrite Hg, Hgp. unfold conclude. simpl. rewrite Hres. apply finally_result.
  - assert (Hk : is_Some (specific st !! k)) by (apply lookup_lt_is_Some; lia).
    destruct Hk as [r Hk]. rewrite Hk.
    rewrite Forall_lookup in Hsp. rewrite (Hsp k r Hk).
    unfold conclude. simpl. rewrite Hres. apply finally_result.
Qed.

Lemma abort_controller (st : Invocation) :
  is_Some (abortController st) -> is_Some (abortController (fst (abort st))).
Proof.
  unfold abort. destruct (abortController st) as [[|]|] eqn:E; simpl; intros H;
    try (rewrite E; exact H); eexists; reflexivity.
Qed.

Lemma step_controller (e : Event) (st : Invocation) :
  is_Some (abortController st) -> is_Some (abortController (step e st)).
Proof.
  intros Hctl.
  assert (Hmid : is_Some (abortController
                   (fst match e with
                        | CallerAborts why => callerAborts why st
                        | Settles i s => settles i s st
                        end))).
  { destruct e as [why | i s].
    - unfold callerAborts. destruct (reason (callerAbortSignal st)); [exact Hctl|].
      destruct (decide _); simpl; [|exact Hctl].
      match goal with |- context [abort ?x] => apply (abort_controller x) end. exact Hctl.
    - unfold settles. destruct i as [|k].
      + destruct (generic st) as [r|]; [destruct (state r)|]; exact Hctl.
      + destruct (specific st !! k) as [r|]; [destruct (state r)|]; exact Hctl. }
  unfold step, conclude.
  destruct (result _); [exact Hmid|]. destruct (snd _); [exact Hmid|].
  unfold finally. simpl.
  match goal with |- context [abort ?x] => apply (abort_controller x) end. exact Hmid.
Qed.

(** Once returned through the racing phase, an invocation has fired its
    internal signal, run its cleanup once and restored the caller's
    listeners. *)
Lemma Inv_returned (ls : list Listener) (st : Invocation) :
  Inv ls st -> is_Some (result st) ->
  listeners (callerAbortSignal st) = ls
  ∧ (is_Some (abortController st) ->
     abortController st = Some true ∧ cleanups st = 1 ∧ Forall told (racers st)).
Proof.
  intros (_ & Htold & _ & _ & Hshape) [s Hres]. rewrite Hres in Hshape.
  destruct (abortController st) as [[|]|]; try contradiction.
  - destruct Hshape as [Hc Hl]. split; [exact Hl|]. intros _. auto.
  - destruct Hshape as (_ & _ & _ & Hl). split; [exact Hl|]. intros [? H]. discriminate H.
Qed.

Lemma Inv_pending (ls : list Listener) (st : Invocation) :
  Inv ls st -> result st = None ->
  is_Some (abortController st) ∧ cleanups st = 0 ∧ is_Some (generic st)
  ∧ Forall pending (racers st).
Proof.
  intros (_ & _ & _ & _ & Hshape) Hres. rewrite Hres in Hshape.
  destruct (abortController st) as [[|]|]; try contradiction;
    (split; [eexists; reflexivity | tauto]).
Qed.

Lemma awaitVoid_unknown (s : Settlement unit) : awaitVoid (unknown s) = s.
Proof. destruct s as [[]|e]; reflexivity. Qed.

Lemma awaited_idempotent (p : option (Settlement JsValue)) : awaited (awaited p) = awaited p.
Proof. destruct p as [[v|e]|]; reflexivity. Qed.

(** An invocation refused on entry has nothing left that an event could
    change. *)
Lemma refused_is_final (e : Event) (st : Invocation) :
  is_Some (reason (callerAbortSignal st)) -> generic st = None -> specific st = [] ->
  step e st = st.
Proof.
  intros [why Hwhy] Hg Hsp. unfold step. destruct e as [why' | i s].
  - unfold callerAborts. rewrite Hwhy. unfold conclude. simpl. destruct (result st); reflexivity.
  - unfold settles. rewrite Hg, Hsp. destruct i; unfold conclude; simpl;
      destruct (result st); reflexivity.
Qed.

Lemma refused_run (es : list Event) (st : Invocation) :
  is_Some (reason (callerAbortSignal st)) -> generic st = None -> specific st = [] ->
  run es st = st.
Proof.
  intros Hwhy Hg Hsp. induction es as [|e es IH]; [reflexivity|].
  change (run es (step e st) = st). rewrite refused_is_final; assumption.
Qed.

(** ** The claims *)

(** C1 (first settlement wins).  Take any invocation of [raceStrategies]
    whose race is pending, so that every raced promise is pending.  When one
    of them, the generic one ([i = 0]) or a specific one, settles with [s],
    the promise of [raceStrategies] settles with [s] itself, a value or an
    error alike, and the promise of a waiter built on it with [s] less its
    value; nothing delivered later changes that outcome; the internal signal
    has fired, every producer watching it has been told, and the cleanup has
    run once. *)
Theorem first_settlement_wins {TConfig : Type} `{BaseConfig TConfig} (config : TConfig)
    (getSpecificStrategiesForRace : TConfig -> M (list Racer)) (signal : AbortSignal)
    (before : list Event) (i : nat) (s : Settlement JsValue) :
  let st := run before (raceStrategies config getSpecificStrategiesForRace signal) in
  result st = None ->
  i <= length (specific st) ->
  let st' := step (Settles i s) st in
  Forall pending (racers st)
  ∧ result st' = Some s
  ∧ promiseOfWaiter st' = Some (awaitVoid s)
  ∧ (forall later, result (run later st') = Some s)
  ∧ abortController st' = Some true
  ∧ Forall told (racers st')
  ∧ cleanups st' = 1.
Proof.
  intros st Hres Hi st'.
  assert (HInv : Inv (listeners signal) st) by apply run_Inv, raceStrategies_Inv.
  assert (Hwon : result st' = Some s) by apply (settles_decides _ _ _ _ HInv Hres Hi).
  destruct (Inv_pending _ _ HInv Hres) as (Hctl & _ & _ & Hpend).
  assert (HInv' : Inv (listeners signal) st') by apply step_Inv, HInv.
  destruct (Inv_returned _ _ HInv' (ex_intro _ s Hwon)) as [_ Hdone].
  destruct (Hdone (step_controller _ _ Hctl)) as (Hfired & Hclean & Htold).
  split; [exact Hpend|]. split; [exact Hwon|].
  split; [unfold promiseOfWaiter; rewrite Hwon; reflexivity|].
  split; [intros later; apply run_result_stable, Hwon|]. auto.
Qed.

(** C3 (early abort).  When the caller's signal is already aborted at the
    time of the call, [raceStrategies] returns a promise rejected with the
    signal's reason, and so do both waiters; no factory is invoked then or
    later, no racing promise and no controller exist, and the caller's
    listeners are untouched. *)
Theorem early_abort (signal : AbortSignal) (why : string) (later : list Event) :
  reason signal = Some why ->
  (forall (TConfig : Type) (C : BaseConfig TConfig) (config : TConfig)
          (getSpecificStrategiesForRace : TConfig -> M (list Racer)),
      let st := run later (raceStrategies config getSpecificStrategiesForRace signal) in
      result st = Some (Rejected (AbortError why)) ∧ calls st = [] ∧ racers st = []
      ∧ abortController st = None ∧ callerAbortSignal st = signal)
  ∧ (forall config,
      let st := run later (waitForDurableNonceTransactionConfirmation config signal) in
      promiseOfWaiter st = Some (Rejected (AbortError why)) ∧ calls st = [])
  ∧ (forall config,
      let st := run later (waitForRecentTransactionConfirmation config signal) in
      promiseOfWaiter st = Some (Rejected (AbortError why)) ∧ calls st = []).
Proof.
  intros Hwhy.
  assert (Hgen : forall (TConfig : Type) (C : BaseConfig TConfig) (config : TConfig)
                        (getSpecificStrategiesForRace : TConfig -> M (list Racer)),
             run later (raceStrategies config getSpecificStrategiesForRace signal)
             = {| callerAbortSignal := signal; self := freshOwner (listeners signal);
                  abortController := None; generic := None; specific := []; calls := [];
                  cleanups := 0; result := Some (Rejected (AbortError why)) |}).
  { intros. unfold raceStrategies, throwIfAborted. rewrite Hwhy. cbv zeta.
    apply refused_run; simpl; [rewrite Hwhy; eexists; reflexivity | reflexivity | reflexivity]. }
  split; [|split].
  - intros. subst st. rewrite Hgen. simpl. repeat split; reflexivity.
  - intros. subst st. unfold waitForDurableNonceTransactionConfirmation, promiseOfWaiter.
    rewrite Hgen. simpl. auto.
  - intros. subst st. unfold waitForRecentTransactionConfirmation, promiseOfWaiter.
    rewrite Hgen. simpl. auto.
Qed.

(** C6 (cleanup invariant).  Once the promise of [raceStrategies], hence of
    a waiter, is settled, whatever the outcome and whatever happens
    afterwards, the listeners of the caller's signal are exactly those it
    had before the call: the [handleAbort] closure of the invocation is not
    among them. *)
Theorem no_listener_left {TConfig : Type} `{BaseConfig TConfig} (config : TConfig)
    (getSpecificStrategiesForRace : TConfig -> M (list Racer)) (signal : AbortSignal)
    (events : list Event) :
  let st := run events (raceStrategies config getSpecificStrategiesForRace signal) in
  is_Some (promiseOfWaiter st) ->
  listeners (callerAbortSignal st) = listeners signal
  ∧ handleAbort (self st) ∉ listeners (callerAbortSignal st).
Proof.
  intros st Hdone.
  assert (HInv : Inv (listeners signal) st) by apply run_Inv, raceStrategies_Inv.
  assert (Hres : is_Some (result st)).
  { unfold promiseOfWaiter, awaited in Hdone. destruct (result st); [eexists; reflexivity|].
    destruct Hdone as [? Hdone]. discriminate Hdone. }
  destruct (Inv_returned _ _ HInv Hres) as [Hls _].
  split; [exact Hls|]. rewrite Hls. apply HInv.
Qed.

Lemma reaction_after_notify (r : Racer) :
  reaction CallerSignal (notify InternalSignal r) = reaction CallerSignal r.
Proof.
  unfold reaction, notify. destruct (state r) eqn:Hstate; [rewrite Hstate; reflexivity|].
  destruct (decide (watching r = InternalSignal)) as [Hw|Hw]; simpl;
    [|rewrite Hstate; reflexivity].
  rewrite Hw. destruct (decide (InternalSignal = CallerSignal)); [discriminate|].
  destruct (uponAbort r); reflexivity.
Qed.

Lemma reactions_after_notify (rs : list Racer) :
  omap (reaction CallerSignal) (notify InternalSignal <$> rs)
  = omap (reaction CallerSignal) rs.
Proof.
  induction rs as [|r rs IH]; [reflexivity|].
  change (omap (reaction CallerSignal) (notify InternalSignal <$> r :: rs))
    with (match reaction CallerSignal (notify InternalSignal r) with
          | Some s => s :: omap (reaction CallerSignal) (notify InternalSignal <$> rs)
          | None => omap (reaction CallerSignal) (notify InternalSignal <$> rs)
          end).
  rewrite reaction_after_notify, IH. reflexivity.
Qed.

Lemma option_list_fmap {A B : Type} (f : A -> B) (o : option A) :
  option_list (f <$> o) = f <$> option_list o.
Proof. destruct o; reflexivity. Qed.

(** The caller's signal firing on a registered [handleAbort]: the internal
    signal is aborted, every producer is notified, and the settlements this
    provokes are handed to the race in the order they were made. *)
Lemma callerAborts_forwarded (why : string) (st : Invocation) :
  reason (callerAbortSignal st) = None ->
  abortController st = Some false ->
  handleAbort (self st) ∈ listeners (callerAbortSignal st) ->
  snd (callerAborts why st) = cancellations st
  ∧ abortController (fst (callerAborts why st)) = Some true
  ∧ racers (fst (callerAborts why st))
    = notify CallerSignal <$> (notify InternalSignal <$> racers st)
  ∧ reason (callerAbortSignal (fst (callerAborts why st))) = Some why.
Proof.
  intros Hwhy Hfalse Hin. unfold callerAborts. rewrite Hwhy.
  destruct (decide _) as [_|Hout]; [|contradiction].
  unfold abort. simpl abortController. rewrite Hfalse.
  unfold dispatch, cancellations, subscribers, racers. simpl.
  rewrite !option_list_fmap, <- !fmap_app, reactions_after_notify.
  repeat split; reflexivity.
Qed.

Lemma conclude_aborted (p : Invocation * list (Settlement JsValue)) :
  result (fst p) = None -> abortController (fst p) = Some true ->
  conclude p
  = match snd p with
    | [] => fst p
    | s :: _ => countCleanup (setResult s (fst p))
    end.
Proof.
  intros Hres Hctl. unfold conclude. rewrite Hres. destruct (snd p); [reflexivity|].
  unfold finally, abort. simpl. rewrite Hctl. reflexivity.
Qed.

(** C4, as amended (what a caller's abort does).  Take an invocation whose
    race is pending and whose caller's signal has not fired.  When it fires,
    [handleAbort] aborts the internal signal: every producer has been
    notified, those watching the internal signal have been told, and the
    listener is detached.  The coordinator rejects nothing itself: the
    promise of [raceStrategies] is settled in that turn by the first
    settlement the raced promises make on cancellation, in the order their
    factories were called.  So it rejects with an abort error when that
    first settlement is such a rejection, with the cleanup run once; and it
    is still pending, the cleanup not run, when no raced promise settles on
    cancellation. *)
Theorem caller_abort_is_forwarded {TConfig : Type} `{BaseConfig TConfig} (config : TConfig)
    (getSpecificStrategiesForRace : TConfig -> M (list Racer)) (signal : AbortSignal)
    (before : list Event) (why : string) :
  let st := run before (raceStrategies config getSpecificStrategiesForRace signal) in
  result st = None ->
  reason (callerAbortSignal st) = None ->
  let st' := step (CallerAborts why) st in
  abortController st' = Some true
  ∧ racers st' = notify CallerSignal <$> (notify InternalSignal <$> racers st)
  ∧ Forall told (racers st')
  ∧ listeners (callerAbortSignal st') = listeners signal
  ∧ result st' = head (cancellations st)
  ∧ (forall why' rest,
        cancellations st = Rejected (AbortError why') :: rest ->
        result st' = Some (Rejected (AbortError why'))
        ∧ promiseOfWaiter st' = Some (Rejected (AbortError why'))
        ∧ cleanups st' = 1)
  ∧ (cancellations st = [] -> result st' = None ∧ cleanups st' = 0).
Proof.
  intros st Hres Hwhy st'.
  assert (HInv : Inv (listeners signal) st) by apply run_Inv, raceStrategies_Inv.
  destruct (Inv_pending _ _ HInv Hres) as (Hctl & _ & _ & _).
  assert (Hfalse : abortController st = Some false).
  { destruct HInv as (_ & _ & _ & Hcause & _).
    destruct (abortController st) as [[|]|]; [|reflexivity|destruct Hctl; discriminate].
    destruct (Hcause eq_refl Hres) as [? Hsome]. congruence. }
  assert (Hin : handleAbort (self st) ∈ listeners (callerAbortSignal st))
    by (apply (listening_iff _ _ HInv); exact Hfalse).
  destruct (callerAborts_forwarded why st Hwhy Hfalse Hin) as (Hnews & Hfired & Hracers & _).
  assert (Hmid : result (fst (callerAborts why st)) = None)
    by (rewrite (proj1 (callerAborts_frame _ _)); exact Hres).
  assert (Hst' : st' = match cancellations st with
                       | [] => fst (callerAborts why st)
                       | s :: _ => countCleanup (setResult s (fst (callerAborts why st)))
                       end).
  { unfold st', step. rewrite (conclude_aborted _ Hmid Hfired), Hnews. reflexivity. }
  assert (Hhead : result st' = head (cancellations st)).
  { rewrite Hst'. destruct (cancellations st); [exact Hmid | reflexivity]. }
  assert (Hfired' : abortController st' = Some true).
  { rewrite Hst'. destruct (cancellations st); [exact Hfired | exact Hfired]. }
  assert (Hracers' : racers st' = notify CallerSignal <$> (notify InternalSignal <$> racers st)).
  { rewrite Hst'. destruct (cancellations st); exact Hracers. }
  assert (HInv' : Inv (listeners signal) st') by apply step_Inv, HInv.
  assert (Hclean : (result st' = None -> cleanups st' = 0)
                   ∧ (is_Some (result st') -> cleanups st' = 1)
                   ∧ listeners (callerAbortSignal st') = listeners signal).
  { destruct HInv' as (_ & _ & _ & _ & Hshape). rewrite Hfired' in Hshape.
    destruct (result st') as [s|].
    - destruct Hshape as [Hc Hl]. split; [discriminate|]. auto.
    - destruct Hshape as (Hc & _ & _ & Hl). split; [auto|]. split; [|exact Hl].
      intros [? Hsome]. discriminate Hsome. }
  destruct Hclean as (Hpending & Hdone & Hls).
  split; [exact Hfired'|]. split; [exact Hracers'|].
  split; [apply HInv'; exact Hfired'|]. split; [exact Hls|]. split; [exact Hhead|].
  split.
  - intros why' rest Hfirst. rewrite Hfirst in Hhead. simpl in Hhead.
    split; [exact Hhead|]. split; [unfold promiseOfWaiter; rewrite Hhead; reflexivity|].
    apply Hdone. rewrite Hhead. eexists. reflexivity.
  - intros Hnone. rewrite Hnone in Hhead. simpl in Hhead. auto.
Qed.

(** *** The callbacks of the two waiters *)

Lemma durable_callback (c : DurableCfg.t) (log : list FactoryCall) :
  DurableNonce.getSpecificStrategiesForRace c log
  = match firstAccountAddress (DurableCfg.transaction c) with
    | inl e => (log, inl e)
    | inr nonceAccountAddress =>
        let args :=
          {| NonceArgs.abortSignal := DurableCfg.abortSignal c;
             NonceArgs.commitment := DurableCfg.commitment c;
             NonceArgs.currentNonceValue :=
               nonce (lifetimeConstraint (DurableCfg.transaction c));
             NonceArgs.nonceAccountAddress := nonceAccountAddress |} in
        (log ++ [calledNonceInvalidation args],
         match DurableCfg.getNonceInvalidationPromise c args with
         | inl e => inl e
         | inr b => inr [spawn (DurableCfg.abortSignal c) b]
         end)
    end.
Proof.
  unfold DurableNonce.getSpecificStrategiesForRace, mbind, M_bind, bind, evaluate, invoke.
  destruct (firstAccountAddress _); [reflexivity|]. simpl.
  destruct (DurableCfg.getNonceInvalidationPromise c _); reflexivity.
Qed.

Lemma recent_callback (c : RecentCfg.t) (log : list FactoryCall) :
  Recent.getSpecificStrategiesForRace c log
  = let args :=
      {| HeightArgs.abortSignal := RecentCfg.abortSignal c;
         HeightArgs.lastValidBlockHeight :=
           lastValidBlockHeight (lifetimeConstraint (RecentCfg.transaction c)) |} in
    (log ++ [calledBlockHeightExceedence args],
     match RecentCfg.getBlockHeightExceedencePromise c args with
     | inl e => inl e
     | inr b => inr [spawn (RecentCfg.abortSignal c) b]
     end).
Proof.
  unfold Recent.getSpecificStrategiesForRace, mbind, M_bind, bind, invoke. simpl.
  destruct (RecentCfg.getBlockHeightExceedencePromise c _); reflexivity.
Qed.

Lemma notify_wiring (signal : SignalRef) (rs : list Racer) :
  wiring <$> (notify signal <$> rs) = wiring <$> rs.
Proof.
  rewrite <- list_fmap_compose. apply list_fmap_ext. intros _ r _.
  unfold wiring, compose. rewrite notify_watching, notify_uponAbort. reflexivity.
Qed.

Lemma abort_wiring (st : Invocation) :
  wiring <$> specific (fst (abort st)) = wiring <$> specific st.
Proof.
  unfold abort. destruct (abortController st) as [[|]|]; try reflexivity.
  simpl. apply notify_wiring.
Qed.

Lemma finally_wiring (s : Settlement JsValue) (st : Invocation) :
  wiring <$> specific (finally s st) = wiring <$> specific st.
Proof. unfold finally. simpl. apply (abort_wiring (setResult s st)). Qed.

Lemma conclude_wiring (p : Invocation * list (Settlement JsValue)) :
  wiring <$> specific (conclude p) = wiring <$> specific (fst p).
Proof.
  unfold conclude. destruct (result (fst p)), (snd p); try reflexivity. apply finally_wiring.
Qed.

(** A pending recent or durable waiter races exactly two promises. *)
Lemma durable_pending (config : DurableCfg.t) (signal : AbortSignal) :
  result (waitForDurableNonceTransactionConfirmation config signal) = None ->
  length (specific (waitForDurableNonceTransactionConfirmation config signal)) = 1.
Proof.
  unfold waitForDurableNonceTransactionConfirmation, raceStrategies. cbv zeta.
  destruct (throwIfAborted signal); [discriminate|].
  destruct (getSignatureFromTransaction _ _); [discriminate|].
  rewrite durable_callback.
  destruct (firstAccountAddress _); [rewrite finally_result; discriminate|]. cbv zeta.
  destruct (DurableCfg.getNonceInvalidationPromise _ _); [rewrite finally_result; discriminate|].
  destruct (invoke _ _ _ _) as [log' [e|p]]; [rewrite finally_result; discriminate|].
  intros _. rewrite <- (length_fmap wiring), conclude_wiring. reflexivity.
Qed.

Lemma recent_pending (config : RecentCfg.t) (signal : AbortSignal) :
  result (waitForRecentTransactionConfirmation config signal) = None ->
  length (specific (waitForRecentTransactionConfirmation config signal)) = 1.
Proof.
  unfold waitForRecentTransactionConfirmation, raceStrategies. cbv zeta.
  destruct (throwIfAborted signal); [discriminate|].
  destruct (getSignatureFromTransaction _ _); [discriminate|].
  rewrite recent_callback. cbv zeta.
  destruct (RecentCfg.getBlockHeightExceedencePromise _ _);
    [rewrite finally_result; discriminate|].
  destruct (invoke _ _ _ _) as [log' [e|p]]; [rewrite finally_result; discriminate|].
  intros _. rewrite <- (length_fmap wiring), conclude_wiring. reflexivity.
Qed.


(** C8 (what the recent-blockhash waiter races).  For a call that reaches
    the race, the callback invokes the block-height factory once, with the
    internal signal and the [lastValidBlockHeight] of the lifetime
    constraint (and no commitment), and returns the one promise it gave;
    the invocation has called that factory and then the
    signature-confirmation factory, and races exactly one specific
    promise, watching the internal signal. *)
Theorem recent_waiter_supplies_height_promise (config : RecentCfg.t) (signal : AbortSignal)
    (signature : Signature) (b : Behaviour) :
  let args :=
    {| HeightArgs.abortSignal := InternalSignal;
       HeightArgs.lastValidBlockHeight :=
         lastValidBlockHeight (lifetimeConstraint (RecentCfg.transaction config)) |} in
  reason signal = None ->
  getSignatureFromTransaction _ (RecentCfg.transaction config) = inr signature ->
  RecentCfg.getBlockHeightExceedencePromise config args = inr b ->
  let st := waitForRecentTransactionConfirmation config signal in
  Recent.getSpecificStrategiesForRace (withAbortSignal InternalSignal config) []
    = ([calledBlockHeightExceedence args], inr [spawn InternalSignal b])
  ∧ calls st
    = [calledBlockHeightExceedence args;
       calledRecentSignatureConfirmation
         {| SignatureArgs.abortSignal := InternalSignal;
            SignatureArgs.commitment := RecentCfg.commitment config;
            SignatureArgs.signature := signature |}]
  ∧ wiring <$> specific st = [(InternalSignal, unknown <$> onAbort b)].
Proof.
  intros args Hwhy Hsig Hb st.
  assert (Hcb : Recent.getSpecificStrategiesForRace (withAbortSignal InternalSignal config) []
                = ([calledBlockHeightExceedence args], inr [spawn InternalSignal b])).
  { rewrite recent_callback. simpl. fold args. rewrite Hb. reflexivity. }
  split; [exact Hcb|].
  unfold st, waitForRecentTransactionConfirmation, raceStrategies, throwIfAborted.
  cbv zeta. rewrite Hwhy.
  cbn [lifetime transaction Recent_BaseConfig].
  rewrite Hsig, Hcb. unfold invoke.
  destruct (getRecentSignatureConfirmationPromise config _) as [e|g].
  - rewrite finally_calls, finally_wiring. split; reflexivity.
  - rewrite conclude_calls, conclude_wiring. split; reflexivity.
Qed.

(** C9 (the default confirmers).  Creating a confirmer calls each
    [create...PromiseFactory] import once, with the endpoints given (the
    block-height one takes only [rpcSubscriptions]), whatever was built
    before.  A call of the function returned builds nothing, whatever was
    built before it: it is the waiter applied to the caller's config
    extended with the two factories built at creation, so that at every
    moment the invocation is in the same state and the confirmer's promise
    is settled exactly as the waiter's. *)
Theorem default_confirmers_are_partial_applications (rpc : Rpc)
    (rpcSubscriptions : RpcSubscriptions) (built : list (Construction Rpc RpcSubscriptions)) :
  let durable :=
    createDefaultDurableNonceTransactionConfirmer
      {| durable_rpc := rpc; durable_rpcSubscriptions := rpcSubscriptions |} built in
  let recent :=
    createDefaultRecentTransactionConfirmer
      {| recent_rpc := rpc; recent_rpcSubscriptions := rpcSubscriptions |} built in
  fst durable
    = built ++ [createdNonceInvalidationPromiseFactory rpc rpcSubscriptions;
                createdRecentSignatureConfirmationPromiseFactory rpc rpcSubscriptions]
  ∧ (forall (config : ConfirmerConfig.t NonceLifetime) (signal : AbortSignal)
            (built' : list (Construction Rpc RpcSubscriptions)) (events : list Event),
       let call := snd durable config signal built' in
       fst call = built'
       ∧ run events (snd call)
         = run events
             (waitForDurableNonceTransactionConfirmation
                {| DurableCfg.abortSignal := ConfirmerConfig.abortSignal config;
                   DurableCfg.commitment := ConfirmerConfig.commitment config;
                   DurableCfg.transaction := ConfirmerConfig.transaction config;
                   DurableCfg.getNonceInvalidationPromise :=
                     createNonceInvalidationPromiseFactory rpc rpcSubscriptions;
                   DurableCfg.getRecentSignatureConfirmationPromise :=
                     createRecentSignatureConfirmationPromiseFactory rpc rpcSubscriptions |}
                signal)
       ∧ promiseOfConfirmer (run events (snd call))
         = promiseOfWaiter (run events (snd call)))
  ∧ fst recent
    = built ++ [createdBlockHeightExceedencePromiseFactory (Rpc := Rpc) rpcSubscriptions;
                createdRecentSignatureConfirmationPromiseFactory rpc rpcSubscriptions]
  ∧ (forall (config : ConfirmerConfig.t BlockhashLifetime) (signal : AbortSignal)
            (built' : list (Construction Rpc RpcSubscriptions)) (events : list Event),
       let call := snd recent config signal built' in
       fst call = built'
       ∧ run events (snd call)
         = run events
             (waitForRecentTransactionConfirmation
                {| RecentCfg.abortSignal := ConfirmerConfig.abortSignal config;
                   RecentCfg.commitment := ConfirmerConfig.commitment config;
                   RecentCfg.transaction := ConfirmerConfig.transaction config;
                   RecentCfg.getBlockHeightExceedencePromise :=
                     createBlockHeightExceedencePromiseFactory rpcSubscriptions;
                   RecentCfg.getRecentSignatureConfirmationPromise :=
                     createRecentSignatureConfirmationPromiseFactory rpc rpcSubscriptions |}
                signal)
       ∧ promiseOfConfirmer (run events (snd call))
         = promiseOfWaiter (run events (snd call))).
Proof.
  intros durable recent.
  split.
  { unfold durable, createDefaultDurableNonceTransactionConfirmer, bindK, construct2, retK.
    simpl. rewrite <- app_assoc. reflexivity. }
  split.
  { intros config signal built' events call. split; [reflexivity|]. split; [reflexivity|].
    unfold promiseOfConfirmer, promiseOfWaiter. apply awaited_idempotent. }
  split.
  { unfold recent, createDefaultRecentTransactionConfirmer, bindK, construct1, construct2,
      retK. simpl. rewrite <- app_assoc. reflexivity. }
  intros config signal built' events call. split; [reflexivity|]. split; [reflexivity|].
  unfold promiseOfConfirmer, promiseOfWaiter. apply awaited_idempotent.
Qed.

(** C2, as amended (the nonce-invalidation promise is raced, not deferred
    to).  In a pending durable-nonce wait, the first settlement of the
    nonce-invalidation promise (element 1) settles the call at once with
    that settlement, and nothing that arrives later, a resolution of the
    signature-confirmation promise included, changes it; in particular, when
    the factory observes a nonce different from the recorded one its promise
    rejects and so does the call.  An observation of the recorded nonce
    changes nothing, and while the nonce-invalidation promise is pending a
    resolution of the signature-confirmation promise (element 0) resolves
    the call. *)
Theorem nonce_settlement_ends_the_race (config : DurableCfg.t) (signal : AbortSignal) :
  let st := waitForDurableNonceTransactionConfirmation config signal in
  result st = None ->
  (forall s later,
      promiseOfWaiter (step (Settles 1 s) st) = Some (awaitVoid s)
      ∧ promiseOfWaiter (run (Settles 1 s :: later) st) = Some (awaitVoid s))
  ∧ (forall args observed later,
        String.eqb observed (NonceArgs.currentNonceValue args) = false ->
        promiseOfWaiter (run (nonceAccountChanged args observed ++ later) st)
        = Some (Rejected (Failure "The nonce is no longer valid")))
  ∧ (forall args observed,
        String.eqb observed (NonceArgs.currentNonceValue args) = true ->
        run (nonceAccountChanged args observed) st = st)
  ∧ (forall v later,
        promiseOfWaiter (run (Settles 0 (Fulfilled v) :: later) st) = Some (Fulfilled tt)).
Proof.
  intros st Hres.
  assert (HInv : Inv (listeners signal) st) by apply raceStrategies_Inv.
  assert (Hlen : length (specific st) = 1) by apply durable_pending, Hres.
  assert (Hwins : forall i s later, i <= 1 ->
             promiseOfWaiter (run (Settles i s :: later) st) = Some (awaitVoid s)).
  { intros i s later Hi. unfold promiseOfWaiter.
    change (run (Settles i s :: later) st) with (run later (step (Settles i s) st)).
    rewrite (run_result_stable later s); [reflexivity|].
    apply (settles_decides _ _ _ _ HInv Hres). lia. }
  split; [|split; [|split]].
  - intros s later. split; [exact (Hwins 1 s [] (le_n 1)) | exact (Hwins 1 s later (le_n 1))].
  - intros args observed later Hne. unfold nonceAccountChanged, nonceObserved.
    rewrite Hne. exact (Hwins 1 _ later (le_n 1)).
  - intros args observed Heq. unfold nonceAccountChanged, nonceObserved.
    rewrite Heq. reflexivity.
  - intros v later. apply (Hwins 0). lia.
Qed.

(** C10, as amended (the positional read).  The first account of the first
    instruction is read without a guard.  The read is defined whenever the
    instruction list is non-empty and its first instruction has an account;
    it throws a [TypeError] whenever the list is empty or the first
    instruction has no account, and in no other case.  For such a
    transaction, a call whose caller's signal is not already aborted and
    whose signature can be derived rejects with that [TypeError]; no factory
    has been invoked, neither the nonce-invalidation nor the
    signature-confirmation one, no promise is raced, and the cleanup has run
    and detached the listener. *)
Theorem durable_waiter_positional_read (config : DurableCfg.t) (signal : AbortSignal)
    (signature : Signature) :
  reason signal = None ->
  getSignatureFromTransaction _ (DurableCfg.transaction config) = inr signature ->
  let tx := DurableCfg.transaction config in
  let st := waitForDurableNonceTransactionConfirmation config signal in
  (forall instruction rest meta metas,
      instructions tx = instruction :: rest -> accounts instruction = Some (meta :: metas) ->
      firstAccountAddress tx = inr (address meta))
  ∧ (forall e, firstAccountAddress tx = inl e ->
       (exists message, e = TypeError message)
       ∧ (instructions tx = []
          ∨ exists instruction rest, instructions tx = instruction :: rest
              ∧ (accounts instruction = None ∨ accounts instruction = Some []))
       ∧ promiseOfWaiter st = Some (Rejected e)
       ∧ calls st = [] ∧ racers st = []
       ∧ abortController st = Some true ∧ cleanups st = 1
       ∧ listeners (callerAbortSignal st) = listeners signal)
  ∧ (instructions tx = []
     ∨ (exists instruction rest, instructions tx = instruction :: rest
          ∧ (accounts instruction = None ∨ accounts instruction = Some [])) ->
     exists message,
       firstAccountAddress tx = inl (TypeError message)
       ∧ promiseOfWaiter st = Some (Rejected (TypeError message))
       ∧ (forall later, promiseOfWaiter (run later st) = Some (Rejected (TypeError message)))
       ∧ calls st = [] ∧ racers st = []
       ∧ abortController st = Some true ∧ cleanups st = 1
       ∧ listeners (callerAbortSignal st) = listeners signal).
Proof.
  intros Hwhy Hsig tx st.
  assert (Hthrown : forall e, firstAccountAddress tx = inl e ->
            promiseOfWaiter st = Some (Rejected e)
            ∧ (forall later, promiseOfWaiter (run later st) = Some (Rejected e))
            ∧ calls st = [] ∧ racers st = []
            ∧ abortController st = Some true ∧ cleanups st = 1
            ∧ listeners (callerAbortSignal st) = listeners signal).
  { intros e He.
    assert (Hst : st = finally (Rejected e)
                    (setCalls []
                       (setController false
                          (setCaller
                             {| reason := None;
                                listeners := listeners signal
                                             ++ [handleAbort (freshOwner (listeners signal))] |}
                             {| callerAbortSignal := signal;
                                self := freshOwner (listeners signal);
                                abortController := None; generic := None; specific := [];
                                calls := []; cleanups := 0; result := None |})))).
    { unfold st, waitForDurableNonceTransactionConfirmation, raceStrategies, throwIfAborted.
      cbv zeta. rewrite Hwhy. cbn [lifetime transaction DurableNonce_BaseConfig].
      rewrite Hsig, durable_callback.
      cbn [withAbortSignal DurableNonce_BaseConfig DurableCfg.transaction].
      unfold tx in He. rewrite He. simpl self.
      rewrite (addEventListener_fresh _ _ (freshOwner_fresh (listeners signal))), Hwhy.
      reflexivity. }
    assert (Hres : result st = Some (Rejected e)) by (rewrite Hst; apply finally_result).
    split; [unfold promiseOfWaiter; rewrite Hres; reflexivity|].
    split.
    { intros later. unfold promiseOfWaiter.
      rewrite (run_result_stable later (Rejected e)); [reflexivity | exact Hres]. }
    rewrite Hst. unfold finally, abort. simpl.
    rewrite (filter_detach _ _ (freshOwner_fresh (listeners signal))).
    repeat split; reflexivity. }
  split; [|split].
  - intros instruction rest meta metas Hix Hacc. unfold firstAccountAddress.
    fold tx. rewrite Hix. simpl. rewrite Hacc. reflexivity.
  - intros e He.
    assert (Hshape : (exists message, e = TypeError message)
                     ∧ (instructions tx = []
                        ∨ exists instruction rest, instructions tx = instruction :: rest
                            ∧ (accounts instruction = None ∨ accounts instruction = Some []))).
    { unfold firstAccountAddress in He. fold tx in He.
      destruct (instructions tx) as [|instruction rest]; simpl in He.
      - injection He as <-. split; [eexists; reflexivity | left; reflexivity].
      - destruct (accounts instruction) as [[|meta metas]|] eqn:Hacc; simpl in He;
          try discriminate; injection He as <-;
          (split; [eexists; reflexivity | right; eexists _, _; split; [reflexivity | auto]]). }
    destruct Hshape as [Hmsg Hbad]. split; [exact Hmsg|]. split; [exact Hbad|].
    destruct (Hthrown e He) as (Hp & _ & Hrest). split; [exact Hp | exact Hrest].
  - intros Hbad.
    assert (Hthrows : exists message, firstAccountAddress tx = inl (TypeError message)).
    { unfold firstAccountAddress.
      destruct Hbad as [Hnil | (instruction & rest & Hix & [Hnone | Hempty])].
      - rewrite Hnil. eexists. reflexivity.
      - rewrite Hix. simpl. rewrite Hnone. eexists. reflexivity.
      - rewrite Hix. simpl. rewrite Hempty. eexists. reflexivity. }
    destruct Hthrows as [message He]. exists message.
    split; [exact He|]. apply (Hthrown _ He).
Qed.

(** The waiters' promises are of type [Promise<void>]: a settlement [s0]
    of a raced promise reaches the caller of a waiter as it is. *)
Lemma durable_waiter_first_settlement (config : DurableCfg.t) (signal : AbortSignal)
    (i : nat) (s0 : Settlement unit) :
  let st := waitForDurableNonceTransactionConfirmation config signal in
  result st = None -> i <= 1 ->
  promiseOfWaiter (step (Settles i (unknown s0)) st) = Some s0.
Proof.
  intros st Hres Hi. unfold promiseOfWaiter.
  rewrite (settles_decides (listeners signal) i (unknown s0) st).
  - simpl. rewrite awaitVoid_unknown. reflexivity.
  - apply raceStrategies_Inv.
  - exact Hres.
  - unfold st. rewrite durable_pending; [exact Hi | exact Hres].
Qed.

Lemma recent_waiter_first_settlement (config : RecentCfg.t) (signal : AbortSignal)
    (i : nat) (s0 : Settlement unit) :
  let st := waitForRecentTransactionConfirmation config signal in
  result st = None -> i <= 1 ->
  promiseOfWaiter (step (Settles i (unknown s0)) st) = Some s0.
Proof.
  intros st Hres Hi. unfold promiseOfWaiter.
  rewrite (settles_decides (listeners signal) i (unknown s0) st).
  - simpl. rewrite awaitVoid_unknown. reflexivity.
  - apply raceStrategies_Inv.
  - exact Hres.
  - unfold st. rewrite recent_pending; [exact Hi | exact Hres].
Qed.

(** The synchronous exits of the [try] block: the derivation of the specific
    strategies throws (no factory of the coordinator's own is called), or
    the signature-confirmation factory throws.  Either way the promise
    rejects with what was thrown, after one cleanup. *)
Lemma derivation_throw_is_cleaned_up {TConfig : Type} `{BaseConfig TConfig} (config : TConfig)
    (getSpecificStrategiesForRace : TConfig -> M (list Racer)) (signal : AbortSignal)
    (signature : Signature) (log : list FactoryCall) (e : JsError) :
  reason signal = None ->
  getSignatureFromTransaction _ (transaction config) = inr signature ->
  getSpecificStrategiesForRace (withAbortSignal InternalSignal config) [] = (log, inl e) ->
  let st := raceStrategies config getSpecificStrategiesForRace signal in
  result st = Some (Rejected e) ∧ calls st = log ∧ generic st = None
  ∧ abortController st = Some true ∧ cleanups st = 1
  ∧ listeners (callerAbortSignal st) = listeners signal.
Proof.
  intros Hwhy Hsig Hcb st.
  assert (Hst : st = finally (Rejected e)
                  (setCalls log
                     (setController false
                        (setCaller
                           {| reason := None;
                              listeners := listeners signal
                                           ++ [handleAbort (freshOwner (listeners signal))] |}
                           {| callerAbortSignal := signal;
                              self := freshOwner (listeners signal);
                              abortController := None; generic := None; specific := [];
                              calls := []; cleanups := 0; result := None |})))).
  { unfold st, raceStrategies, throwIfAborted. cbv zeta. rewrite Hwhy, Hsig, Hcb. simpl self.
    rewrite (addEventListener_fresh _ _ (freshOwner_fresh (listeners signal))), Hwhy.
    reflexivity. }
  rewrite Hst. unfold finally, abort. simpl.
  rewrite (filter_detach _ _ (freshOwner_fresh (listeners signal))).
  repeat split; reflexivity.
Qed.

Lemma factory_throw_is_cleaned_up {TConfig : Type} `{BaseConfig TConfig} (config : TConfig)
    (getSpecificStrategiesForRace : TConfig -> M (list Racer)) (signal : AbortSignal)
    (signature : Signature) (log : list FactoryCall) (specificStrategies : list Racer)
    (e : JsError) :
  reason signal = None ->
  getSignatureFromTransaction _ (transaction config) = inr signature ->
  getSpecificStrategiesForRace (withAbortSignal InternalSignal config) []
    = (log, inr specificStrategies) ->
  getRecentSignatureConfirmationPromise config
    {| SignatureArgs.abortSignal := InternalSignal;
       SignatureArgs.commitment := commitment config;
       SignatureArgs.signature := signature |} = inl e ->
  let st := raceStrategies config getSpecificStrategiesForRace signal in
  result st = Some (Rejected e) ∧ generic st = None
  ∧ specific st = notify InternalSignal <$> specificStrategies
  ∧ abortController st = Some true ∧ cleanups st = 1
  ∧ listeners (callerAbortSignal st) = listeners signal.
Proof.
  intros Hwhy Hsig Hcb Hthrow st.
  unfold st, raceStrategies, throwIfAborted, invoke. cbv zeta.
  rewrite Hwhy, Hsig, Hcb, Hthrow. simpl self.
  rewrite (addEventListener_fresh _ _ (freshOwner_fresh (listeners signal))).
  unfold finally, abort. simpl.
  rewrite (filter_detach _ _ (freshOwner_fresh (listeners signal))).
  repeat split; reflexivity.
Qed.

(** C5 (cleanup on every exit).  Every way out of the [try] block runs the
    [finally] block, which aborts the internal signal whether or not it is
    aborted already.
    - The race resolves or rejects: when a raced promise settles with [s]
      in a pending invocation, the promise settles with [s], the internal
      signal is aborted, every producer watching it has been told, the
      listener is detached and the cleanup has run once.
    - The derivation of the specific strategies throws [e]: the promise
      rejects with [e], the signal is aborted, the listener is detached and
      the cleanup has run once.
    - The signature-confirmation factory throws [e]: the same, and the
      specific promises already created have each been notified.
    - And at any moment of an invocation that entered the [try] block the
      cleanup has run at most once: not at all while the race is pending,
      exactly once, with the signal aborted and the producers told, once the
      promise is settled. *)
Theorem cleanup_on_every_exit {TConfig : Type} `{BaseConfig TConfig} (config : TConfig)
    (getSpecificStrategiesForRace : TConfig -> M (list Racer)) (signal : AbortSignal) :
  (forall (before : list Event) (i : nat) (s : Settlement JsValue),
      let st := run before (raceStrategies config getSpecificStrategiesForRace signal) in
      result st = None -> i <= length (specific st) ->
      let st' := step (Settles i s) st in
      result st' = Some s
      ∧ abortController st' = Some true
      ∧ Forall told (racers st')
      ∧ listeners (callerAbortSignal st') = listeners signal
      ∧ cleanups st = 0 ∧ cleanups st' = 1)
  ∧ (forall (signature : Signature) (log : list FactoryCall) (e : JsError),
      reason signal = None ->
      getSignatureFromTransaction _ (transaction config) = inr signature ->
      getSpecificStrategiesForRace (withAbortSignal InternalSignal config) [] = (log, inl e) ->
      let st := raceStrategies config getSpecificStrategiesForRace signal in
      result st = Some (Rejected e)
      ∧ abortController st = Some true
      ∧ listeners (callerAbortSignal st) = listeners signal
      ∧ cleanups st = 1)
  ∧ (forall (signature : Signature) (log : list FactoryCall)
            (specificStrategies : list Racer) (e : JsError),
      reason signal = None ->
      getSignatureFromTransaction _ (transaction config) = inr signature ->
      getSpecificStrategiesForRace (withAbortSignal InternalSignal config) []
        = (log, inr specificStrategies) ->
      getRecentSignatureConfirmationPromise config
        {| SignatureArgs.abortSignal := InternalSignal;
           SignatureArgs.commitment := commitment config;
           SignatureArgs.signature := signature |} = inl e ->
      let st := raceStrategies config getSpecificStrategiesForRace signal in
      result st = Some (Rejected e)
      ∧ abortController st = Some true
      ∧ specific st = notify InternalSignal <$> specificStrategies
      ∧ listeners (callerAbortSignal st) = listeners signal
      ∧ cleanups st = 1)
  ∧ (forall (events : list Event),
      let st := run events (raceStrategies config getSpecificStrategiesForRace signal) in
      cleanups st <= 1
      ∧ (result st = None -> cleanups st = 0)
      ∧ (is_Some (result st) -> is_Some (abortController st) ->
         abortController st = Some true ∧ cleanups st = 1 ∧ Forall told (racers st))).
Proof.
  split; [|split; [|split]].
  - intros before i s st Hres Hi st'.
    assert (HInv : Inv (listeners signal) st) by apply run_Inv, raceStrategies_Inv.
    assert (Hwon : result st' = Some s) by apply (settles_decides _ _ _ _ HInv Hres Hi).
    destruct (Inv_pending _ _ HInv Hres) as (Hctl & Hzero & _ & _).
    assert (HInv' : Inv (listeners signal) st') by apply step_Inv, HInv.
    destruct (Inv_returned _ _ HInv' (ex_intro _ s Hwon)) as [Hls Hdone].
    destruct (Hdone (step_controller _ _ Hctl)) as (Hfired & Hclean & Htold).
    auto 10.
  - intros signature log e Hwhy Hsig Hcb st.
    destruct (derivation_throw_is_cleaned_up config getSpecificStrategiesForRace signal
                signature log e Hwhy Hsig Hcb) as (Hres & _ & _ & Hfired & Hclean & Hls).
    auto.
  - intros signature log specificStrategies e Hwhy Hsig Hcb Hthrow st.
    destruct (factory_throw_is_cleaned_up config getSpecificStrategiesForRace signal
                signature log specificStrategies e Hwhy Hsig Hcb Hthrow)
      as (Hres & _ & Hsp & Hfired & Hclean & Hls).
    auto.
  - intros events st.
    assert (HInv : Inv (listeners signal) st) by apply run_Inv, raceStrategies_Inv.
    destruct (result st) as [s|] eqn:Hres.
    + destruct (Inv_returned _ _ HInv (ex_intro _ s Hres)) as [_ Hdone].
      split.
      * destruct HInv as (_ & _ & _ & _ & Hshape). rewrite Hres in Hshape.
        destruct (abortController st) as [[|]|]; try contradiction;
          destruct Hshape as [Hc _]; lia.
      * split; [discriminate|]. intros _ Hctl. apply Hdone, Hctl.
    + destruct (Inv_pending _ _ HInv Hres) as (_ & Hclean & _).
      split; [lia|]. split; [auto|]. intros [? Hsome]. discriminate Hsome.
Qed.

End Properties.

(** ** The claims at concrete inputs *)

Lemma first_settlement_wins_witness :
  result scenarioC = None
  ∧ 1 <= length (specific scenarioC)
  ∧ result (step (Settles 1 (Rejected (Failure "expired"))) scenarioC)
    = Some (Rejected (Failure "expired"))
  ∧ abortController (step (Settles 1 (Rejected (Failure "expired"))) scenarioC) = Some true.
Proof.
  split; [reflexivity|]. split; [vm_compute; lia|].
  pose proof (first_settlement_wins primarySignature (durableConfig durableTransaction)
                DurableNonce.getSpecificStrategiesForRace freshSignal [] 1
                (Rejected (Failure "expired")) eq_refl (le_n 1)) as H.
  split; [exact (proj1 (proj2 H)) | exact (proj1 (proj2 (proj2 (proj2 (proj2 H)))))].
Defined.

Lemma nonce_settlement_ends_the_race_witness :
  result scenarioC = None
  ∧ promiseOfWaiter
      (run (nonceAccountChanged scenarioC_args "N2" ++ [Settles 0 (Fulfilled undefined)])
         scenarioC)
    = Some (Rejected (Failure "The nonce is no longer valid")).
Proof.
  split; [reflexivity|].
  exact (proj1 (proj2 (nonce_settlement_ends_the_race primarySignature
                         (durableConfig durableTransaction) freshSignal eq_refl))
           scenarioC_args "N2" [Settles 0 (Fulfilled undefined)] eq_refl).
Defined.

(** C2 as stated fails in scenario C: the factory was called with the nonce
    ["N1"]; when it observes ["N2"] the call is no longer pending, it has
    rejected, and the resolution of the signature-confirmation promise that
    follows does not resolve it. *)
Lemma scenario_C_rejects_on_divergence :
  calls scenarioC
  = [calledNonceInvalidation scenarioC_args;
     calledRecentSignatureConfirmation
       {| SignatureArgs.abortSignal := InternalSignal;
          SignatureArgs.commitment := confirmed;
          SignatureArgs.signature := "Sig1" |}]
  ∧ promiseOfWaiter scenarioC = None
  ∧ promiseOfWaiter (run (nonceAccountChanged scenarioC_args "N2") scenarioC)
    = Some (Rejected (Failure "The nonce is no longer valid"))
  ∧ promiseOfWaiter
      (run (nonceAccountChanged scenarioC_args "N2" ++ [Settles 0 (Fulfilled undefined)])
         scenarioC)
    = Some (Rejected (Failure "The nonce is no longer valid"))
  ∧ ~ (promiseOfWaiter (run (nonceAccountChanged scenarioC_args "N2") scenarioC) = None
       ∧ promiseOfWaiter
           (run (nonceAccountChanged scenarioC_args "N2"
                 ++ [Settles 0 (Fulfilled undefined)]) scenarioC)
         = Some (Fulfilled tt)).
Proof.
  split; [reflexivity|]. split; [reflexivity|]. split; [reflexivity|].
  split; [reflexivity|]. intros [H _]. vm_compute in H. discriminate H.
Qed.

Lemma early_abort_witness :
  reason abortedSignal = Some "user cancelled"
  ∧ promiseOfWaiter
      (run [Settles 0 (Fulfilled undefined)]
         (waitForRecentTransactionConfirmation primarySignature recentConfig abortedSignal))
    = Some (Rejected (AbortError "user cancelled"))
  ∧ calls
      (run [Settles 0 (Fulfilled undefined)]
         (waitForRecentTransactionConfirmation primarySignature recentConfig abortedSignal))
    = [].
Proof.
  split; [reflexivity|].
  exact (proj2 (proj2 (early_abort primarySignature abortedSignal "user cancelled"
                         [Settles 0 (Fulfilled undefined)] eq_refl)) recentConfig).
Defined.

Lemma caller_abort_is_forwarded_witness :
  result scenarioC = None
  ∧ reason (callerAbortSignal scenarioC) = None
  ∧ abortController (step (CallerAborts "stop") scenarioC) = Some true
  ∧ promiseOfWaiter (step (CallerAborts "stop") scenarioC)
    = Some (Rejected (AbortError "This operation was aborted"))
  ∧ cleanups (step (CallerAborts "stop") scenarioC) = 1.
Proof.
  split; [reflexivity|]. split; [reflexivity|].
  pose proof (caller_abort_is_forwarded primarySignature (durableConfig durableTransaction)
                DurableNonce.getSpecificStrategiesForRace freshSignal [] "stop"
                eq_refl eq_refl) as H.
  split; [exact (proj1 H)|].
  exact (proj2 (proj1 (proj2 (proj2 (proj2 (proj2 (proj2 H)))))
                  "This operation was aborted" [] eq_refl)).
Defined.

(** C4 as stated fails on [hastyCall]: the signature-confirmation promise
    rejects on cancellation, as its contract has it, but the block-height
    promise, told first, resolves on cancellation.  When the caller's signal
    fires the internal signal is aborted, and the wait resolves: it does not
    reject with an aborted error. *)
Lemma caller_abort_can_resolve_the_wait :
  promiseOfWaiter hastyCall = None
  ∧ reason (callerAbortSignal hastyCall) = None
  ∧ abortController (step (CallerAborts "stop") hastyCall) = Some true
  ∧ promiseOfWaiter (step (CallerAborts "stop") hastyCall) = Some (Fulfilled tt)
  ∧ ~ (exists why',
          promiseOfWaiter (step (CallerAborts "stop") hastyCall)
          = Some (Rejected (AbortError why'))).
Proof.
  split; [reflexivity|]. split; [reflexivity|]. split; [reflexivity|].
  split; [reflexivity|]. intros [why' H]. vm_compute in H. discriminate H.
Qed.

Lemma cleanup_on_every_exit_witness :
  (result scenarioC = None
   ∧ 0 <= length (specific scenarioC)
   ∧ result (step (Settles 0 (Fulfilled undefined)) scenarioC) = Some (Fulfilled undefined)
   ∧ abortController (step (Settles 0 (Fulfilled undefined)) scenarioC) = Some true
   ∧ cleanups (step (Settles 0 (Fulfilled undefined)) scenarioC) = 1)
  ∧ (reason freshSignal = None
     ∧ primarySignature _ emptyDurableTransaction = inr "Sig1"
     ∧ result
         (waitForDurableNonceTransactionConfirmation primarySignature
            (durableConfig emptyDurableTransaction) freshSignal)
       = Some (Rejected
                 (TypeError "Cannot read properties of undefined (reading 'accounts')"))
     ∧ abortController
         (waitForDurableNonceTransactionConfirmation primarySignature
            (durableConfig emptyDurableTransaction) freshSignal)
       = Some true
     ∧ cleanups
         (waitForDurableNonceTransactionConfirmation primarySignature
            (durableConfig emptyDurableTransaction) freshSignal)
       = 1).
Proof.
  pose proof (cleanup_on_every_exit primarySignature (durableConfig durableTransaction)
                DurableNonce.getSpecificStrategiesForRace freshSignal) as Hrace.
  pose proof (cleanup_on_every_exit primarySignature (durableConfig emptyDurableTransaction)
                DurableNonce.getSpecificStrategiesForRace freshSignal) as Hthrow.
  split.
  - pose proof (proj1 Hrace [] 0 (Fulfilled undefined) eq_refl (Nat.le_0_l _)) as H.
    split; [reflexivity|]. split; [apply Nat.le_0_l|].
    split; [exact (proj1 H)|]. split; [exact (proj1 (proj2 H))|].
    exact (proj2 (proj2 (proj2 (proj2 (proj2 H))))).
  - pose proof (proj1 (proj2 Hthrow) "Sig1" []
                  (TypeError "Cannot read properties of undefined (reading 'accounts')")
                  eq_refl eq_refl eq_refl) as H.
    split; [reflexivity|]. split; [reflexivity|].
    split; [exact (proj1 H)|]. split; [exact (proj1 (proj2 H))|].
    exact (proj2 (proj2 (proj2 H))).
Defined.

Lemma no_listener_left_witness :
  is_Some (promiseOfWaiter (run [CallerAborts "stop"] scenarioC))
  ∧ listeners (callerAbortSignal (run [CallerAborts "stop"] scenarioC)) = [otherListener 7].
Proof.
  assert (Hdone : is_Some (promiseOfWaiter (run [CallerAborts "stop"] scenarioC)))
    by (eexists; reflexivity).
  split; [exact Hdone|].
  exact (proj1 (no_listener_left primarySignature (durableConfig durableTransaction)
                  DurableNonce.getSpecificStrategiesForRace freshSignal
                  [CallerAborts "stop"] Hdone)).
Defined.


Lemma recent_waiter_supplies_height_promise_witness :
  reason freshSignal = None
  ∧ primarySignature _ recentTransaction = inr "Sig2"
  ∧ specBlockHeightExceedencePromise
      {| HeightArgs.abortSignal := InternalSignal; HeightArgs.lastValidBlockHeight := 100 |}
    = inr {| initially := None; onAbort := None |}
  ∧ calls (waitForRecentTransactionConfirmation primarySignature recentConfig freshSignal)
    = [calledBlockHeightExceedence
         {| HeightArgs.abortSignal := InternalSignal;
            HeightArgs.lastValidBlockHeight := 100 |};
       calledRecentSignatureConfirmation
         {| SignatureArgs.abortSignal := InternalSignal;
            SignatureArgs.commitment := finalized;
            SignatureArgs.signature := "Sig2" |}].
Proof.
  split; [reflexivity|]. split; [reflexivity|]. split; [reflexivity|].
  exact (proj1 (proj2 (recent_waiter_supplies_height_promise primarySignature
                         recentConfig freshSignal "Sig2"
                         {| initially := None; onAbort := None |}
                         eq_refl eq_refl eq_refl))).
Defined.

Lemma durable_waiter_positional_read_witness :
  reason freshSignal = None
  ∧ primarySignature _ accountlessDurableTransaction = inr "Sig1"
  ∧ primarySignature _ noAccountDurableTransaction = inr "Sig1"
  ∧ (exists message,
        firstAccountAddress accountlessDurableTransaction = inl (TypeError message)
        ∧ promiseOfWaiter
            (waitForDurableNonceTransactionConfirmation primarySignature
               (durableConfig accountlessDurableTransaction) freshSignal)
          = Some (Rejected (TypeError message)))
  ∧ (exists message,
        firstAccountAddress noAccountDurableTransaction = inl (TypeError message)
        ∧ calls
            (waitForDurableNonceTransactionConfirmation primarySignature
               (durableConfig noAccountDurableTransaction) freshSignal)
          = []).
Proof.
  split; [reflexivity|]. split; [reflexivity|]. split; [reflexivity|].
  split.
  - destruct (proj2 (proj2 (durable_waiter_positional_read primarySignature
                              (durableConfig accountlessDurableTransaction) freshSignal
                              "Sig1" eq_refl eq_refl)))
      as (message & Hread & Hrejects & _).
    + right. eexists _, _. split; [reflexivity|]. left. reflexivity.
    + exists message. split; [exact Hread | exact Hrejects].
  - destruct (proj2 (proj2 (durable_waiter_positional_read primarySignature
                              (durableConfig noAccountDurableTransaction) freshSignal
                              "Sig1" eq_refl eq_refl)))
      as (message & Hread & _ & _ & Hcalls & _).
    + right. eexists _, _. split; [reflexivity|]. right. reflexivity.
    + exists message. split; [exact Hread | exact Hcalls].
Defined.

(** C10 as stated fails when the caller's signal is already aborted: the
    transaction has no instruction, so the positional read would throw, but
    the call rejects with the abort reason and never reaches the read. *)
Lemma malformed_call_on_aborted_signal :
  firstAccountAddress emptyDurableTransaction
  = inl (TypeError "Cannot read properties of undefined (reading 'accounts')")
  ∧ promiseOfWaiter refusedMalformedCall = Some (Rejected (AbortError "user cancelled"))
  ∧ ~ (exists message,
          promiseOfWaiter refusedMalformedCall = Some (Rejected (TypeError message))).
Proof.
  split; [reflexivity|]. split; [reflexivity|].
  intros [message H]. vm_compute in H. discriminate H.
Qed.

(** ** The scenarios of the spec, evaluated *)

(** Scenario A: blockhash lifetime, the signature confirms first. *)
Example scenario_A_resolves :
  promiseOfWaiter
    (run [Settles 0 (Fulfilled undefined)]
       (waitForRecentTransactionConfirmation primarySignature recentConfig freshSignal))
  = Some (Fulfilled tt).
Proof. reflexivity. Qed.

(** Scenario B: the block-height promise rejects first; the confirmation
    that arrives afterwards is discarded. *)
Example scenario_B_rejects :
  promiseOfWaiter
    (run [Settles 1 (Rejected (Failure "block height exceeded"));
          Settles 0 (Fulfilled undefined)]
       (waitForRecentTransactionConfirmation primarySignature recentConfig freshSignal))
  = Some (Rejected (Failure "block height exceeded")).
Proof. reflexivity. Qed.

(** Scenario D: the caller aborts a pending confirmation. *)
Example scenario_D_aborts :
  promiseOfWaiter
    (run [CallerAborts "stop"]
       (waitForRecentTransactionConfirmation primarySignature recentConfig freshSignal))
  = Some (Rejected (AbortError "This operation was aborted"))
  ∧ listeners
      (callerAbortSignal
         (run [CallerAborts "stop"]
            (waitForRecentTransactionConfirmation primarySignature recentConfig freshSignal)))
    = [otherListener 7].
Proof. split; reflexivity. Qed.

(** * Further properties of the coordinator *)

Section Further.

Variable getSignatureFromTransaction : forall L : Type, Transaction L -> Result Signature.

Local Abbreviation raceStrategies := (raceStrategies getSignatureFromTransaction).
Local Abbreviation waitForDurableNonceTransactionConfirmation :=
  (waitForDurableNonceTransactionConfirmation getSignatureFromTransaction).
Local Abbreviation waitForRecentTransactionConfirmation :=
  (waitForRecentTransactionConfirmation getSignatureFromTransaction).

(** *** What the primitives leave of the caller's signal and of an empty race *)

Lemma abort_keeps_reason (st : Invocation) :
  reason (callerAbortSignal (fst (abort st))) = reason (callerAbortSignal st).
Proof. unfold abort. destruct (abortController st) as [[|]|]; reflexivity. Qed.

Lemma finally_keeps_reason (s : Settlement JsValue) (st : Invocation) :
  reason (callerAbortSignal (finally s st)) = reason (callerAbortSignal st).
Proof. unfold finally. simpl. apply (abort_keeps_reason (setResult s st)). Qed.

Lemma conclude_keeps_reason (p : Invocation * list (Settlement JsValue)) :
  reason (callerAbortSignal (conclude p)) = reason (callerAbortSignal (fst p)).
Proof.
  unfold conclude. destruct (result (fst p)), (snd p); try reflexivity.
  apply finally_keeps_reason.
Qed.

Lemma settlement_keeps_reason (i : nat) (s : Settlement JsValue) (st : Invocation) :
  reason (callerAbortSignal (step (Settles i s) st)) = reason (callerAbortSignal st).
Proof.
  unfold step. rewrite conclude_keeps_reason. unfold settles. destruct i as [|k].
  - destruct (generic st) as [r|]; [destruct (state r)|]; reflexivity.
  - destruct (specific st !! k) as [r|]; [destruct (state r)|]; reflexivity.
Qed.

Lemma raceStrategies_keeps_reason {TConfig : Type} `{BaseConfig TConfig} (config : TConfig)
    (getSpecificStrategiesForRace : TConfig -> M (list Racer)) (signal : AbortSignal) :
  reason (callerAbortSignal (raceStrategies config getSpecificStrategiesForRace signal))
  = reason signal.
Proof.
  unfold raceStrategies. cbv zeta.
  destruct (throwIfAborted signal); [reflexivity|].
  destruct (getSignatureFromTransaction _ _); [reflexivity|].
  assert (Hadd : forall l, reason (addEventListener l false signal) = reason signal).
  { intros l. unfold addEventListener. destruct (decide _); reflexivity. }
  destruct (getSpecificStrategiesForRace _ []) as [log [e|sp]].
  { rewrite finally_keeps_reason. apply Hadd. }
  destruct (invoke _ _ _ _) as [log' [e|p]].
  - rewrite finally_keeps_reason. apply Hadd.
  - rewrite conclude_keeps_reason. apply Hadd.
Qed.

Lemma raceless_step (e : Event) (st : Invocation) :
  raceless st -> abortController st ≠ Some false ->
  raceless (step e st)
  ∧ abortController (step e st) = abortController st
  ∧ cleanups (step e st) = cleanups st.
Proof.
  intros ([r Hr] & Hg & Hsp) Hctl. unfold step. destruct e as [why | i s].
  - unfold callerAborts. destruct (reason (callerAbortSignal st)).
    { unfold conclude. simpl. rewrite Hr. repeat split; eauto. }
    assert (Habort : forall st0, abortController st0 = abortController st -> abort st0 = (st0, [])).
    { intros st0 H0. unfold abort. rewrite H0.
      destruct (abortController st) as [[|]|]; [reflexivity | contradiction | reflexivity]. }
    destruct (decide _); [rewrite Habort by reflexivity|];
      unfold raceless, conclude; simpl; rewrite Hr; simpl; rewrite Hg, Hsp;
      repeat split; eauto.
  - unfold settles. rewrite Hg, Hsp.
    destruct i; unfold conclude; simpl; rewrite Hr; repeat split; eauto.
Qed.

Lemma raceless_run (es : list Event) (st : Invocation) :
  raceless st -> abortController st ≠ Some false ->
  raceless (run es st)
  ∧ abortController (run es st) = abortController st
  ∧ cleanups (run es st) = cleanups st.
Proof.
  revert st. induction es as [|e es IH]; intros st Hr Hctl; [auto|].
  destruct (raceless_step e st Hr Hctl) as (Hr' & Hc' & Hn').
  change (run (e :: es) st) with (run es (step e st)).
  destruct (IH (step e st) Hr') as (Hr'' & Hc'' & Hn''); [rewrite Hc'; exact Hctl|].
  rewrite Hc'', Hn'', Hc', Hn'. auto.
Qed.

Lemma run_keeps_reason (es : list Event) (st : Invocation) :
  (forall why, CallerAborts why ∉ es) ->
  reason (callerAbortSignal (run es st)) = reason (callerAbortSignal st).
Proof.
  revert st. induction es as [|e es IH]; intros st Hno; [reflexivity|].
  change (run (e :: es) st) with (run es (step e st)).
  rewrite IH by (intros why Hin; apply (Hno why); right; exact Hin).
  destruct e as [why | i s]; [|apply settlement_keeps_reason].
  exfalso. apply (Hno why). left.
Qed.

Lemma raceless_racers (st : Invocation) : raceless st -> racers st = [].
Proof. intros (_ & Hg & Hsp). unfold racers. rewrite Hg, Hsp. reflexivity. Qed.

(** The state in which [raceStrategies] enters its [try] block. *)
Lemma entering_try {TConfig : Type} `{BaseConfig TConfig} (config : TConfig)
    (getSpecificStrategiesForRace : TConfig -> M (list Racer)) (signal : AbortSignal)
    (signature : Signature) :
  reason signal = None ->
  getSignatureFromTransaction _ (transaction config) = inr signature ->
  raceStrategies config getSpecificStrategiesForRace signal
  = let listening :=
      {| callerAbortSignal :=
           {| reason := None;
              listeners := listeners signal ++ [handleAbort (freshOwner (listeners signal))] |};
         self := freshOwner (listeners signal);
         abortController := Some false; generic := None; specific := []; calls := [];
         cleanups := 0; result := None |} in
    match getSpecificStrategiesForRace (withAbortSignal InternalSignal config) [] with
    | (log, inl e) => finally (Rejected e) (setCalls log listening)
    | (log, inr specificStrategies) =>
        let args :=
          {| SignatureArgs.abortSignal := InternalSignal;
             SignatureArgs.commitment := commitment config;
             SignatureArgs.signature := signature |} in
        match getRecentSignatureConfirmationPromise config args with
        | inl e =>
            finally (Rejected e)
              (setCalls (log ++ [calledRecentSignatureConfirmation args])
                 (setRacers None specificStrategies (setCalls log listening)))
        | inr b =>
            conclude
              (setRacers (Some (spawn InternalSignal b)) specificStrategies
                 (setCalls (log ++ [calledRecentSignatureConfirmation args])
                    (setRacers None specificStrategies (setCalls log listening))),
               omap state (spawn InternalSignal b :: specificStrategies))
        end
    end.
Proof.
  intros Hwhy Hsig. unfold raceStrategies, throwIfAborted, invoke. cbv zeta.
  rewrite Hwhy, Hsig. simpl self.
  rewrite (addEventListener_fresh _ _ (freshOwner_fresh (listeners signal))), Hwhy.
  destruct (getSpecificStrategiesForRace _ []) as [log [e|sp]]; [reflexivity|].
  destruct (getRecentSignatureConfirmationPromise config _); reflexivity.
Qed.

(** X1 (the signature cannot be derived).  When the caller's signal is not
    aborted and [getSignatureFromTransaction] throws [e] (line 64), the
    promise rejects with [e]; the controller is never created, so there is
    no cleanup to run and no listener was added to the caller's signal; no
    factory is invoked and nothing is raced, whatever happens later. *)
Theorem signature_failure_is_returned {TConfig : Type} `{BaseConfig TConfig}
    (config : TConfig) (getSpecificStrategiesForRace : TConfig -> M (list Racer))
    (signal : AbortSignal) (e : JsError) (events : list Event) :
  reason signal = None ->
  getSignatureFromTransaction _ (transaction config) = inl e ->
  let st := run events (raceStrategies config getSpecificStrategiesForRace signal) in
  result st = Some (Rejected e) ∧ calls st = [] ∧ racers st = []
  ∧ abortController st = None ∧ cleanups st = 0
  ∧ listeners (callerAbortSignal st) = listeners signal.
Proof.
  intros Hwhy Hsig st.
  assert (Hst0 : raceStrategies config getSpecificStrategiesForRace signal
                 = {| callerAbortSignal := signal; self := freshOwner (listeners signal);
                      abortController := None; generic := None; specific := []; calls := [];
                      cleanups := 0; result := Some (Rejected e) |}).
  { unfold raceStrategies, throwIfAborted. cbv zeta. rewrite Hwhy, Hsig. reflexivity. }
  assert (HInv : Inv (listeners signal) st) by apply run_Inv, raceStrategies_Inv.
  assert (Hres : result st = Some (Rejected e)).
  { apply run_result_stable. rewrite Hst0. reflexivity. }
  destruct (raceless_run events (raceStrategies config getSpecificStrategiesForRace signal))
    as (Hless & Hctl & Hclean).
  { rewrite Hst0. split; [eexists; reflexivity | split; reflexivity]. }
  { rewrite Hst0. discriminate. }
  split; [exact Hres|]. split; [unfold st; rewrite run_calls, Hst0; reflexivity|].
  split; [apply raceless_racers, Hless|].
  split; [unfold st; rewrite Hctl, Hst0; reflexivity|].
  split; [unfold st; rewrite Hclean, Hst0; reflexivity|].
  apply (Inv_returned _ _ HInv). rewrite Hres. eexists. reflexivity.
Qed.

(** X2 (the derivation of the specific strategies throws).  When the
    callback throws [e] (line 71), the signature-confirmation factory is
    never called: the factory calls are those the callback made before it
    threw.  The promise rejects with [e], the internal signal is aborted,
    the cleanup has run once and the listener is detached, and nothing is
    raced, whatever happens later. *)
Theorem derivation_failure_skips_the_signature_factory {TConfig : Type} `{BaseConfig TConfig}
    (config : TConfig) (getSpecificStrategiesForRace : TConfig -> M (list Racer))
    (signal : AbortSignal) (signature : Signature) (log : list FactoryCall) (e : JsError)
    (events : list Event) :
  reason signal = None ->
  getSignatureFromTransaction _ (transaction config) = inr signature ->
  getSpecificStrategiesForRace (withAbortSignal InternalSignal config) [] = (log, inl e) ->
  let st := run events (raceStrategies config getSpecificStrategiesForRace signal) in
  result st = Some (Rejected e) ∧ calls st = log ∧ racers st = []
  ∧ abortController st = Some true ∧ cleanups st = 1
  ∧ listeners (callerAbortSignal st) = listeners signal.
Proof.
  intros Hwhy Hsig Hcb st.
  pose proof (entering_try config getSpecificStrategiesForRace signal signature Hwhy Hsig)
    as Hst0.
  cbv zeta in Hst0. rewrite Hcb in Hst0.
  assert (Hshape : result (raceStrategies config getSpecificStrategiesForRace signal)
                   = Some (Rejected e)
                   ∧ calls (raceStrategies config getSpecificStrategiesForRace signal) = log
                   ∧ generic (raceStrategies config getSpecificStrategiesForRace signal) = None
                   ∧ specific (raceStrategies config getSpecificStrategiesForRace signal) = []
                   ∧ abortController (raceStrategies config getSpecificStrategiesForRace signal)
                     = Some true
                   ∧ cleanups (raceStrategies config getSpecificStrategiesForRace signal) = 1).
  { rewrite Hst0. unfold finally, abort. simpl. repeat split; reflexivity. }
  destruct Hshape as (Hres0 & Hcalls0 & Hg0 & Hsp0 & Hctl0 & Hclean0).
  assert (HInv : Inv (listeners signal) st) by apply run_Inv, raceStrategies_Inv.
  assert (Hres : result st = Some (Rejected e)) by (apply run_result_stable; exact Hres0).
  destruct (raceless_run events (raceStrategies config getSpecificStrategiesForRace signal))
    as (Hless & Hctl & Hclean).
  { split; [rewrite Hres0; eexists; reflexivity | split; assumption]. }
  { rewrite Hctl0. discriminate. }
  split; [exact Hres|]. split; [unfold st; rewrite run_calls; exact Hcalls0|].
  split; [apply raceless_racers, Hless|].
  split; [unfold st; rewrite Hctl; exact Hctl0|].
  split; [unfold st; rewrite Hclean; exact Hclean0|].
  apply (Inv_returned _ _ HInv). rewrite Hres. eexists. reflexivity.
Qed.

(** X3 (the signature-confirmation factory throws).  When the callback has
    returned its promises and the signature-confirmation factory then
    throws [e] instead of returning one (line 76), the promise rejects with
    [e] for good; the specific promises, which already exist, are told of
    the abort of the internal signal by the [finally] block, which runs once
    and detaches the listener. *)
Theorem signature_factory_failure_cancels_the_specific_promises
    {TConfig : Type} `{BaseConfig TConfig}
    (config : TConfig) (getSpecificStrategiesForRace : TConfig -> M (list Racer))
    (signal : AbortSignal) (signature : Signature) (log : list FactoryCall)
    (specificStrategies : list Racer) (e : JsError) :
  let args :=
    {| SignatureArgs.abortSignal := InternalSignal;
       SignatureArgs.commitment := commitment config;
       SignatureArgs.signature := signature |} in
  reason signal = None ->
  getSignatureFromTransaction _ (transaction config) = inr signature ->
  getSpecificStrategiesForRace (withAbortSignal InternalSignal config) []
    = (log, inr specificStrategies) ->
  getRecentSignatureConfirmationPromise config args = inl e ->
  let st := raceStrategies config getSpecificStrategiesForRace signal in
  (forall later, result (run later st) = Some (Rejected e))
  ∧ calls st = log ++ [calledRecentSignatureConfirmation args]
  ∧ generic st = None
  ∧ specific st = notify InternalSignal <$> specificStrategies
  ∧ Forall told (specific st)
  ∧ abortController st = Some true ∧ cleanups st = 1
  ∧ listeners (callerAbortSignal st) = listeners signal.
Proof.
  intros args Hwhy Hsig Hcb Hthrow st.
  pose proof (entering_try config getSpecificStrategiesForRace signal signature Hwhy Hsig)
    as Hst0.
  cbv zeta in Hst0. rewrite Hcb in Hst0. fold args in Hst0. rewrite Hthrow in Hst0.
  fold st in Hst0.
  assert (Hshape : result st = Some (Rejected e)
                   ∧ calls st = log ++ [calledRecentSignatureConfirmation args]
                   ∧ generic st = None
                   ∧ specific st = notify InternalSignal <$> specificStrategies
                   ∧ abortController st = Some true ∧ cleanups st = 1
                   ∧ listeners (callerAbortSignal st) = listeners signal).
  { rewrite Hst0. unfold finally, abort. simpl.
    rewrite (filter_detach _ _ (freshOwner_fresh (listeners signal))).
    repeat split; reflexivity. }
  destruct Hshape as (Hres & Hcalls & Hg & Hsp & Hctl & Hclean & Hls).
  split; [intros later; apply run_result_stable, Hres|].
  split; [exact Hcalls|]. split; [exact Hg|]. split; [exact Hsp|].
  split; [rewrite Hsp; apply notify_all_told_internal|]. auto.
Qed.

(** X4 (what the factories are handed, and when).  At every moment of a
    wait, the factories invoked are those invoked before the first [await]:
    none (the call was refused, the signature could not be derived or the
    positional read threw), or the specific factory alone (it threw), or
    the specific factory followed by the signature-confirmation factory;
    and every one of them was handed the internal signal, never the
    caller's. *)
Theorem factories_see_only_the_internal_signal :
  (forall (config : DurableCfg.t) (signal : AbortSignal) (events : list Event),
      let st := run events (waitForDurableNonceTransactionConfirmation config signal) in
      calls st = calls (waitForDurableNonceTransactionConfirmation config signal)
      ∧ Forall (fun c => signalOf c = InternalSignal) (calls st)
      ∧ (calls st = []
         ∨ (exists a, calls st = [calledNonceInvalidation a])
         ∨ (exists a b, calls st
                        = [calledNonceInvalidation a; calledRecentSignatureConfirmation b])))
  ∧ (forall (config : RecentCfg.t) (signal : AbortSignal) (events : list Event),
      let st := run events (waitForRecentTransactionConfirmation config signal) in
      calls st = calls (waitForRecentTransactionConfirmation config signal)
      ∧ Forall (fun c => signalOf c = InternalSignal) (calls st)
      ∧ (calls st = []
         ∨ (exists a, calls st = [calledBlockHeightExceedence a])
         ∨ (exists a b, calls st
                        = [calledBlockHeightExceedence a; calledRecentSignatureConfirmation b]))).
Proof.
  split.
  - intros config signal events st. unfold st. rewrite run_calls.
    split; [reflexivity|].
    unfold waitForDurableNonceTransactionConfirmation, raceStrategies. cbv zeta.
    destruct (throwIfAborted signal); [simpl; auto|].
    destruct (getSignatureFromTransaction _ _); [simpl; auto|].
    rewrite durable_callback.
    cbn [withAbortSignal DurableNonce_BaseConfig DurableCfg.transaction
         DurableCfg.abortSignal DurableCfg.commitment DurableCfg.getNonceInvalidationPromise].
    destruct (firstAccountAddress _); [rewrite finally_calls; simpl; auto|]. cbv zeta.
    destruct (DurableCfg.getNonceInvalidationPromise config _).
    + rewrite finally_calls. simpl. split; [repeat constructor|]. right. left. eauto.
    + unfold invoke. destruct (getRecentSignatureConfirmationPromise config _);
        rewrite ?finally_calls, ?conclude_calls; simpl;
        (split; [repeat constructor | right; right; eauto]).
  - intros config signal events st. unfold st. rewrite run_calls.
    split; [reflexivity|].
    unfold waitForRecentTransactionConfirmation, raceStrategies. cbv zeta.
    destruct (throwIfAborted signal); [simpl; auto|].
    destruct (getSignatureFromTransaction _ _); [simpl; auto|].
    rewrite recent_callback.
    cbn [withAbortSignal Recent_BaseConfig RecentCfg.transaction
         RecentCfg.abortSignal RecentCfg.commitment RecentCfg.getBlockHeightExceedencePromise].
    cbv zeta.
    destruct (RecentCfg.getBlockHeightExceedencePromise config _).
    + rewrite finally_calls. simpl. split; [repeat constructor|]. right. left. eauto.
    + unfold invoke. destruct (getRecentSignatureConfirmationPromise config _);
        rewrite ?finally_calls, ?conclude_calls; simpl;
        (split; [repeat constructor | right; right; eauto]).
Qed.

(** X5 (the caller's signal is only listened to).  At every moment of an
    invocation the listeners of the caller's signal are those it had before
    the call, in the same order, followed at most by the invocation's own
    [handleAbort], which is none of them; and as long as the caller has not
    fired the signal itself, the signal is as aborted or not as it was: the
    coordinator never aborts it. *)
Theorem caller_signal_is_only_listened_to {TConfig : Type} `{BaseConfig TConfig}
    (config : TConfig) (getSpecificStrategiesForRace : TConfig -> M (list Racer))
    (signal : AbortSignal) (events : list Event) :
  let st := run events (raceStrategies config getSpecificStrategiesForRace signal) in
  (handleAbort (self st) ∉ listeners signal)
  ∧ (listeners (callerAbortSignal st) = listeners signal
     ∨ listeners (callerAbortSignal st) = listeners signal ++ [handleAbort (self st)])
  ∧ ((forall why, CallerAborts why ∉ events) ->
     reason (callerAbortSignal st) = reason signal).
Proof.
  intros st.
  assert (HInv : Inv (listeners signal) st) by apply run_Inv, raceStrategies_Inv.
  destruct HInv as (Hfresh & _ & _ & _ & Hshape).
  split; [exact Hfresh|]. split.
  - destruct (abortController st) as [[|]|], (result st); try contradiction;
      intuition.
  - intros Hno. unfold st. rewrite run_keeps_reason by exact Hno.
    apply raceStrategies_keeps_reason.
Qed.

Lemma reactions_of_quiet (signal : SignalRef) (rs : list Racer) :
  Forall (fun r => uponAbort r = None) rs -> omap (reaction signal) rs = [].
Proof.
  induction 1 as [|r rs Hr Hrs IH]; [reflexivity|]. simpl.
  unfold reaction at 1. rewrite Hr.
  destruct (state r); [exact IH|]. destruct (decide _); exact IH.
Qed.

Lemma notify_keeps_quiet (signal : SignalRef) (rs : list Racer) :
  Forall (fun r => uponAbort r = None) rs ->
  Forall (fun r => uponAbort r = None) (notify signal <$> rs).
Proof.
  induction 1; simpl; constructor; [rewrite notify_uponAbort; assumption | assumption].
Qed.

(** X6 (the coordinator does not reject on its own).  [handleAbort] only
    aborts the internal signal.  If none of the raced promises settles on
    cancellation, then after the caller's signal fires the promise of
    [raceStrategies] is still pending and the [finally] block has not run,
    although the internal signal is aborted and the listener already
    detached; the first raced promise to settle afterwards still decides
    the outcome. *)
Theorem abort_alone_does_not_settle {TConfig : Type} `{BaseConfig TConfig}
    (config : TConfig) (getSpecificStrategiesForRace : TConfig -> M (list Racer))
    (signal : AbortSignal) (before : list Event) (why : string) :
  let st := run before (raceStrategies config getSpecificStrategiesForRace signal) in
  result st = None ->
  reason (callerAbortSignal st) = None ->
  Forall (fun r => uponAbort r = None) (racers st) ->
  let st' := step (CallerAborts why) st in
  result st' = None
  ∧ abortController st' = Some true
  ∧ cleanups st' = 0
  ∧ listeners (callerAbortSignal st') = listeners signal
  ∧ reason (callerAbortSignal st') = Some why
  ∧ (forall i s, i <= length (specific st') -> result (step (Settles i s) st') = Some s).
Proof.
  intros st Hres Hwhy Hquiet st'.
  assert (HInv : Inv (listeners signal) st) by apply run_Inv, raceStrategies_Inv.
  destruct (Inv_pending _ _ HInv Hres) as (Hctl & _ & _ & _).
  assert (Hfalse : abortController st = Some false).
  { destruct HInv as (_ & _ & _ & Hcause & _).
    destruct (abortController st) as [[|]|]; [|reflexivity|destruct Hctl; discriminate].
    destruct (Hcause eq_refl Hres) as [? Hsome]. congruence. }
  assert (Hin : handleAbort (self st) ∈ listeners (callerAbortSignal st))
    by (apply (listening_iff _ _ HInv); exact Hfalse).
  assert (Hsplit : Forall (fun r => uponAbort r = None) (specific st)
                   ∧ Forall (fun r => uponAbort r = None) (option_list (generic st))).
  { unfold racers in Hquiet. apply Forall_app in Hquiet. tauto. }
  destruct Hsplit as [Hqs Hqg].
  assert (Hqall : forall signal', omap (reaction signal')
                                    (specific st ++ option_list (generic st)) = []).
  { intros signal'. apply reactions_of_quiet. apply Forall_app. auto. }
  assert (Hqall' : forall signal',
             omap (reaction signal')
               ((notify InternalSignal <$> specific st)
                ++ option_list (notify InternalSignal <$> generic st)) = []).
  { intros signal'. apply reactions_of_quiet. apply Forall_app. split.
    - apply notify_keeps_quiet, Hqs.
    - destruct (generic st) as [g|]; simpl; [|constructor].
      inversion Hqg; subst. constructor; [rewrite notify_uponAbort; assumption | constructor]. }
  assert (Hmid : callerAborts why st
                 = (fst (callerAborts why st), [])
                   ∧ abortController (fst (callerAborts why st)) = Some true
                   ∧ reason (callerAbortSignal (fst (callerAborts why st))) = Some why).
  { unfold callerAborts. rewrite Hwhy.
    destruct (decide _) as [_|Hout]; [|contradiction].
    unfold abort. simpl abortController. rewrite Hfalse.
    unfold dispatch. simpl. rewrite Hqall, Hqall'. repeat split; reflexivity. }
  destruct Hmid as (Hpair & Hfired & Hreason).
  assert (Hst' : st' = fst (callerAborts why st)).
  { unfold st', step. rewrite Hpair. unfold conclude. simpl.
    destruct (result (fst (callerAborts why st))); reflexivity. }
  assert (Hres' : result st' = None).
  { rewrite Hst', (proj1 (callerAborts_frame _ _)). exact Hres. }
  assert (HInv' : Inv (listeners signal) st') by apply step_Inv, HInv.
  split; [exact Hres'|]. split; [rewrite Hst'; exact Hfired|].
  split; [apply (Inv_pending _ _ HInv' Hres')|].
  split.
  { assert (Hfired' : abortController st' = Some true) by (rewrite Hst'; exact Hfired).
    destruct HInv' as (_ & _ & _ & _ & Hshape). rewrite Hres', Hfired' in Hshape.
    apply Hshape. }
  split; [rewrite Hst'; exact Hreason|].
  intros i s Hi. apply (settles_decides _ _ _ _ HInv' Hres' Hi).
Qed.

(** X7 (promises settled before the race starts).  The array given to
    [Promise.race] holds the signature-confirmation promise first and the
    specific promises after it (lines 75-82): when the call reaches the
    race, its promise is settled at once by the first promise of that array
    that is already settled, and is pending if none is.  A
    signature-confirmation promise that is already settled therefore wins
    over any specific promise; and whenever the race is decided at once,
    the cleanup has run. *)
Theorem settled_promises_race_in_array_order {TConfig : Type} `{BaseConfig TConfig}
    (config : TConfig) (getSpecificStrategiesForRace : TConfig -> M (list Racer))
    (signal : AbortSignal) (signature : Signature) (log : list FactoryCall)
    (specificStrategies : list Racer) (b : Behaviour) :
  let args :=
    {| SignatureArgs.abortSignal := InternalSignal;
       SignatureArgs.commitment := commitment config;
       SignatureArgs.signature := signature |} in
  reason signal = None ->
  getSignatureFromTransaction _ (transaction config) = inr signature ->
  getSpecificStrategiesForRace (withAbortSignal InternalSignal config) []
    = (log, inr specificStrategies) ->
  getRecentSignatureConfirmationPromise config args = inr b ->
  let st := raceStrategies config getSpecificStrategiesForRace signal in
  result st = head (omap state (spawn InternalSignal b :: specificStrategies))
  ∧ (forall s0, initially b = Some s0 -> result st = Some (unknown s0))
  ∧ (initially b = None -> result st = head (omap state specificStrategies))
  ∧ (is_Some (result st) -> abortController st = Some true ∧ cleanups st = 1).
Proof.
  intros args Hwhy Hsig Hcb Hb st.
  pose proof (entering_try config getSpecificStrategiesForRace signal signature Hwhy Hsig)
    as Hst0.
  cbv zeta in Hst0. rewrite Hcb in Hst0. fold args in Hst0. rewrite Hb in Hst0.
  fold st in Hst0.
  assert (Hhead : result st = head (omap state (spawn InternalSignal b :: specificStrategies))
                  ∧ (is_Some (result st) -> abortController st = Some true ∧ cleanups st = 1)).
  { rewrite Hst0. unfold conclude. cbn [fst snd result setRacers setCalls].
    destruct (omap state (spawn InternalSignal b :: specificStrategies)) as [|s rest].
    - simpl. split; [reflexivity|]. intros [? Hsome]. discriminate Hsome.
    - unfold finally, abort. simpl. split; [reflexivity|]. intros _. split; reflexivity. }
  destruct Hhead as [Hhead Hdone].
  split; [exact Hhead|]. split; [|split; [|exact Hdone]].
  - intros s0 Hs0. rewrite Hhead. simpl. rewrite Hs0. reflexivity.
  - intros Hnone. rewrite Hhead. simpl. rewrite Hnone. reflexivity.
Qed.


End Further.

(** ** The further properties at concrete inputs *)

Lemma signature_failure_is_returned_witness :
  reason freshSignal = None
  ∧ primarySignature _ unsignedTransaction
    = inl (Failure "Could not determine this transaction's signature")
  ∧ result
      (run [CallerAborts "stop"]
         (waitForRecentTransactionConfirmation primarySignature
            (recentConfigWith specRecentSignatureConfirmationPromise
               specBlockHeightExceedencePromise unsignedTransaction) freshSignal))
    = Some (Rejected (Failure "Could not determine this transaction's signature")).
Proof.
  split; [reflexivity|]. split; [reflexivity|].
  exact (proj1 (signature_failure_is_returned primarySignature
                  (recentConfigWith specRecentSignatureConfirmationPromise
                     specBlockHeightExceedencePromise unsignedTransaction)
                  Recent.getSpecificStrategiesForRace freshSignal
                  (Failure "Could not determine this transaction's signature")
                  [CallerAborts "stop"] eq_refl eq_refl)).
Defined.

Lemma derivation_failure_skips_the_signature_factory_witness :
  reason freshSignal = None
  ∧ primarySignature _ recentTransaction = inr "Sig2"
  ∧ calls
      (run [Settles 0 (Fulfilled undefined)]
         (waitForRecentTransactionConfirmation primarySignature
            (recentConfigWith specRecentSignatureConfirmationPromise
               (throwingFactory "no subscription") recentTransaction) freshSignal))
    = [calledBlockHeightExceedence
         {| HeightArgs.abortSignal := InternalSignal;
            HeightArgs.lastValidBlockHeight := 100 |}].
Proof.
  split; [reflexivity|]. split; [reflexivity|].
  exact (proj1 (proj2 (derivation_failure_skips_the_signature_factory primarySignature
                         (recentConfigWith specRecentSignatureConfirmationPromise
                            (throwingFactory "no subscription") recentTransaction)
                         Recent.getSpecificStrategiesForRace freshSignal "Sig2"
                         [calledBlockHeightExceedence
                            {| HeightArgs.abortSignal := InternalSignal;
                               HeightArgs.lastValidBlockHeight := 100 |}]
                         (Failure "no subscription")
                         [Settles 0 (Fulfilled undefined)] eq_refl eq_refl eq_refl))).
Defined.

Lemma signature_factory_failure_cancels_the_specific_promises_witness :
  reason freshSignal = None
  ∧ primarySignature _ recentTransaction = inr "Sig2"
  ∧ result
      (waitForRecentTransactionConfirmation primarySignature
         (recentConfigWith (throwingFactory "no subscription")
            specBlockHeightExceedencePromise recentTransaction) freshSignal)
    = Some (Rejected (Failure "no subscription"))
  ∧ abortController
      (waitForRecentTransactionConfirmation primarySignature
         (recentConfigWith (throwingFactory "no subscription")
            specBlockHeightExceedencePromise recentTransaction) freshSignal)
    = Some true.
Proof.
  split; [reflexivity|]. split; [reflexivity|].
  pose proof (signature_factory_failure_cancels_the_specific_promises primarySignature
                (recentConfigWith (throwingFactory "no subscription")
                   specBlockHeightExceedencePromise recentTransaction)
                Recent.getSpecificStrategiesForRace freshSignal "Sig2"
                [calledBlockHeightExceedence
                   {| HeightArgs.abortSignal := InternalSignal;
                      HeightArgs.lastValidBlockHeight := 100 |}]
                [spawn InternalSignal {| initially := None; onAbort := None |}]
                (Failure "no subscription") eq_refl eq_refl eq_refl eq_refl) as H.
  split; [exact (proj1 H []) | exact (proj1 (proj2 (proj2 (proj2 (proj2 (proj2 H))))))].
Defined.

Lemma caller_signal_is_only_listened_to_witness :
  (forall why, CallerAborts why ∉ [Settles 0 (Fulfilled undefined)])
  ∧ reason (callerAbortSignal (run [Settles 0 (Fulfilled undefined)] scenarioC)) = None.
Proof.
  assert (Hno : forall why, CallerAborts why ∉ [Settles 0 (Fulfilled undefined)]).
  { intros why Hin. apply list_elem_of_singleton in Hin. discriminate Hin. }
  split; [exact Hno|].
  exact (proj2 (proj2 (caller_signal_is_only_listened_to primarySignature
                         (durableConfig durableTransaction)
                         DurableNonce.getSpecificStrategiesForRace freshSignal
                         [Settles 0 (Fulfilled undefined)])) Hno).
Defined.

Lemma abort_alone_does_not_settle_witness :
  result
    (waitForRecentTransactionConfirmation primarySignature
       (recentConfigWith quietFactory quietFactory recentTransaction) freshSignal) = None
  ∧ result
      (step (CallerAborts "stop")
         (waitForRecentTransactionConfirmation primarySignature
            (recentConfigWith quietFactory quietFactory recentTransaction) freshSignal))
    = None
  ∧ abortController
      (step (CallerAborts "stop")
         (waitForRecentTransactionConfirmation primarySignature
            (recentConfigWith quietFactory quietFactory recentTransaction) freshSignal))
    = Some true.
Proof.
  split; [reflexivity|].
  assert (Hquiet : Forall (fun r => uponAbort r = None)
                     (racers
                        (waitForRecentTransactionConfirmation primarySignature
                           (recentConfigWith quietFactory quietFactory recentTransaction)
                           freshSignal))).
  { repeat constructor. }
  pose proof (abort_alone_does_not_settle primarySignature
                (recentConfigWith quietFactory quietFactory recentTransaction)
                Recent.getSpecificStrategiesForRace freshSignal [] "stop"
                eq_refl eq_refl Hquiet) as H.
  split; [exact (proj1 H) | exact (proj1 (proj2 H))].
Defined.

Lemma settled_promises_race_in_array_order_witness :
  reason freshSignal = None
  ∧ primarySignature _ recentTransaction = inr "Sig2"
  ∧ result
      (waitForRecentTransactionConfirmation primarySignature
         (recentConfigWith (settledFactory (Fulfilled tt))
            (settledFactory (Rejected (Failure "expired"))) recentTransaction) freshSignal)
    = Some (Fulfilled undefined).
Proof.
  split; [reflexivity|]. split; [reflexivity|].
  exact (proj1 (proj2 (settled_promises_race_in_array_order primarySignature
                         (recentConfigWith (settledFactory (Fulfilled tt))
                            (settledFactory (Rejected (Failure "expired"))) recentTransaction)
                         Recent.getSpecificStrategiesForRace freshSignal "Sig2"
                         [calledBlockHeightExceedence
                            {| HeightArgs.abortSignal := InternalSignal;
                               HeightArgs.lastValidBlockHeight := 100 |}]
                         [spawn InternalSignal
                            {| initially := Some (Rejected (Failure "expired"));
                               onAbort := None |}]
                         {| initially := Some (Fulfilled tt); onAbort := None |}
                         eq_refl eq_refl eq_refl eq_refl))
           (Fulfilled tt) eq_refl).
Defined.

